(** * Checkpoints IPFS helper: the discovery / pin / prune loop of [index.js]

    The program is a Node.js event loop.  Its asynchronous code (callbacks and
    promise chains) is embedded as an event-driven state machine: every
    callback body of [index.js] is a function of this file, and [handle]
    dispatches one completion event of the event loop (a timer tick, a DNS
    answer, a settled [node.pin.*] call) to the callback that JavaScript would
    run for it.  Everything the program does to the outside world (calls on the
    IPFS node, log lines, [process.exit]) is recorded in an output trace. *)

From Stdlib Require Import String Ascii List Bool Arith ZArith Lia Permutation.
Import ListNotations.
Local Open Scope string_scope.
Local Open Scope list_scope.

(** ** JavaScript string helpers *)

Module JS.

(** [s.split(sep)] for a one-character separator: the segments between the
    occurrences of [sep].  The array is never empty, so it is kept as its
    first segment and the list of the following ones. *)
Fixpoint split (sep : ascii) (s : string) : string * list string :=
  match s with
  | EmptyString => (EmptyString, [])
  | String c s' =>
      let (seg, rest) := split sep s' in
      if Ascii.eqb c sep then (EmptyString, seg :: rest)
      else (String c seg, rest)
  end.

(** [a.pop()] on such a non-empty array: its last element. *)
Definition pop (a : string * list string) : string :=
  List.last (snd a) (fst a).

(** [util.format('%s', v)] of a variable that may still be [undefined]. *)
Definition show (v : option string) : string :=
  match v with
  | Some s => s
  | None => "undefined"
  end.

(** [x !== y] between a string and a variable that may be [undefined]. *)
Definition strict_neq (x : string) (y : option string) : bool :=
  match y with
  | Some s => negb (String.eqb x s)
  | None => true
  end.

(** [x === y], same operand types. *)
Definition strict_eq (x : string) (y : option string) : bool :=
  negb (strict_neq x y).

(** [(new Error(msg)).toString()]. *)
Definition error_toString (msg : string) : string := "Error: " ++ msg.

End JS.

(** A string has no ['/'] in it. *)
Fixpoint no_slash (s : string) : Prop :=
  match s with
  | EmptyString => True
  | String c s' => c <> "/"%char /\ no_slash s'
  end.

(** ** Configuration (the constants read from the environment, lines 19-25) *)

Record Config := {
  checkpointsHostname : string;
  isTesting : bool;
  testMinutes : Z
}.

(** The defaults of lines 22-25, with and without the [test] argument. *)
Definition default_config : Config :=
  {| checkpointsHostname := "ipfs.moncoin.io"; isTesting := false; testMinutes := 15 |}.

Definition test_config : Config :=
  {| checkpointsHostname := "ipfs.moncoin.io"; isTesting := true; testMinutes := 15 |}.

(** ** Version resolver: [getLatestCheckpointsIPFSHash] (lines 115-129) *)

(** What [DNS.resolveTxt] hands to its callback: an error (shown through its
    [toString()]) or the TXT records, each an array of strings. *)
Inductive DnsAnswer :=
| DnsErr (err : string)
| DnsRecords (records : list (list string)).

(** The name queried on line 117. *)
Definition dnslink_name (cfg : Config) : string :=
  "_dnslink." ++ checkpointsHostname cfg.

(** A settled promise: [inl e] is a rejection with an error whose
    [toString()] is [e], [inr v] a fulfilment with [v]. *)
Definition Settled (A : Type) : Type := (string + A)%type.

(** The callback of lines 117-127.  [resolve(hash)] carries
    [record.split('/').pop()]. *)
Definition getLatestCheckpointsIPFSHash (cfg : Config) (answer : DnsAnswer)
  : Settled string :=
  match answer with
  | DnsErr err =>
      inl (JS.error_toString
             ("Error querying DNS for: " ++ checkpointsHostname cfg ++ ": " ++ err))
  | DnsRecords records =>
      match records with
      | [] =>
          inl (JS.error_toString
                 ("Could not retieve the latest checkpoints IPFS hash from: "
                    ++ checkpointsHostname cfg))
      | records0 :: _ =>
          match records0 with
          | [] =>
              inl (JS.error_toString
                     ("Could not retieve the latest checkpoints IPFS hash from: "
                        ++ checkpointsHostname cfg))
          | record :: _ => inr (JS.pop (JS.split "/" record))
          end
      end
  end.

(** ** The pin set and [cleanPins] (lines 133-164) *)

(** An entry of the array that [node.pin.ls] yields.  The program reads two
    fields, [pin.hash] and [pin.type], both strings; the only type it tells
    apart is ['indirect']. *)
Record Pin := {
  hash : string;
  type : string
}.

Definition PinSet : Type := list Pin.

(** The spec's retention classes: a pin is Indirect when its type is
    ['indirect'], Direct otherwise. *)
Definition is_indirect (pin : Pin) : bool := String.eqb (type pin) "indirect".
Definition is_direct (pin : Pin) : bool := negb (is_indirect pin).

(** The [pinset.forEach] loop of lines 150-155: the hashes pushed on
    [removedPins], in order; [unpin] is called on the same hashes in the same
    order.  [hashToSave] is the value of [lastIPFSHash] at the call. *)
Fixpoint cleanPins_forEach (hashToSave : option string) (pinset : PinSet)
  : list string :=
  match pinset with
  | [] => []
  | pin :: rest =>
      if JS.strict_eq (hash pin) hashToSave then cleanPins_forEach hashToSave rest
      else if String.eqb (type pin) "indirect" then cleanPins_forEach hashToSave rest
      else hash pin :: cleanPins_forEach hashToSave rest
  end.

(** ** Output trace *)

Inductive Level := DEBUG | INFO | WARN | ERROR.

(** What the program does to the outside world: a [Logger] line (without its
    timestamp and colour), a call on the DNS resolver or on the IPFS node, or
    [process.exit]. *)
Inductive Effect :=
| Log (level : Level) (message : string)
| ResolveTxt (name : string)
| PinAdd (h : string)
| PinLs
| PinRm (h : string)
| Exit (code : Z).

Definition is_PinAdd (e : Effect) : bool :=
  match e with PinAdd _ => true | _ => false end.

Definition unpinned_line (h : string) : Effect :=
  Log WARN ("Unpinned hash: " ++ h).

(** ** Program state *)

(** Where the promise chain started by one tick stands: which call it waits
    for, with the variables its continuation has captured. *)
Inductive Stage :=
| Resolving
    (* DNS.resolveTxt outstanding *)
| Pinning (newHash : string)
    (* Promise.all([node.pin.add(hash)]) outstanding *)
| Listing (hashToSave : option string)
    (* node.pin.ls of cleanPins(hashToSave) outstanding *)
| Unpinning (removedPins : list string) (pending : list string)
    (* Promise.all of the unpin promises; [pending] are those not yet settled *)
| Done.
    (* the chain has run to its last [then] or to its [catch] *)

Record State := {
  lastIPFSHash : option string;   (* [var lastIPFSHash], line 112 *)
  chains : list Stage;            (* one promise chain per tick fired *)
  pingTimers : list string;       (* the [testPingTimer]s created, line 187 *)
  out : list Effect;              (* output so far, oldest first *)
  exited : option Z               (* [process.exit] status, once called *)
}.

(** The state when the timer is created (line 167): [lastIPFSHash] is
    [undefined]. *)
Definition initial : State :=
  {| lastIPFSHash := None; chains := []; pingTimers := []; out := []; exited := None |}.

Definition emit (es : list Effect) (s : State) : State :=
  {| lastIPFSHash := lastIPFSHash s; chains := chains s;
     pingTimers := pingTimers s; out := out s ++ es; exited := exited s |}.

Definition set_lastIPFSHash (h : string) (s : State) : State :=
  {| lastIPFSHash := Some h; chains := chains s;
     pingTimers := pingTimers s; out := out s; exited := exited s |}.

Definition new_pingTimer (h : string) (s : State) : State :=
  {| lastIPFSHash := lastIPFSHash s; chains := chains s;
     pingTimers := pingTimers s ++ [h]; out := out s; exited := exited s |}.

Definition process_exit (code : Z) (s : State) : State :=
  {| lastIPFSHash := lastIPFSHash s; chains := chains s;
     pingTimers := pingTimers s; out := out s ++ [Exit code]; exited := Some code |}.

Fixpoint update {A : Type} (l : list A) (i : nat) (x : A) : list A :=
  match l, i with
  | [], _ => []
  | _ :: l', O => x :: l'
  | y :: l', S i' => y :: update l' i' x
  end.

Definition set_stage (id : nat) (st : Stage) (s : State) : State :=
  {| lastIPFSHash := lastIPFSHash s; chains := update (chains s) id st;
     pingTimers := pingTimers s; out := out s; exited := exited s |}.

Definition new_chain (s : State) : State :=
  {| lastIPFSHash := lastIPFSHash s; chains := chains s ++ [Resolving];
     pingTimers := pingTimers s; out := out s; exited := exited s |}.

Definition stage_of (id : nat) (s : State) : option Stage :=
  nth_error (chains s) id.

Definition settled (st : Stage) : bool :=
  match st with Done => true | _ => false end.

(** Number of promise chains that have neither completed nor failed. *)
Definition in_flight (s : State) : nat :=
  length (filter (fun st => negb (settled st)) (chains s)).

(** ** The tick handler (lines 171-210), one function per callback *)

(** [.catch(error => Logger.warn(error.toString()))], line 209. *)
Definition tick_catch (id : nat) (error : string) (s : State) : State :=
  set_stage id Done (emit [Log WARN error] s).

(** Third [then], lines 205-208: one warning per entry of [pins]. *)
Definition tick_unpinned (id : nat) (pins : list string) (s : State) : State :=
  set_stage id Done (emit (map unpinned_line pins) s).

(** Second [then], lines 195-204.  [results] is what [Promise.all(promises)]
    fulfilled with; only its length is read.  [process.exit(0)] ends the
    process, so [cleanPins] is not reached in a test run that pinned. *)
Definition tick_results (cfg : Config) (id : nat) (newHash : string)
    (results_length : nat) (s : State) : State :=
  let s1 :=
    if Nat.eqb results_length 1
    then emit [Log INFO ("Pinned successfully: " ++ newHash)] s
    else s in
  if Nat.eqb results_length 1 && isTesting cfg
  then process_exit 0 (emit [Log DEBUG "Test completed. Stopping..."] s1)
  else set_stage id (Listing (lastIPFSHash s1)) (emit [PinLs] s1).

(** First [then], lines 173-194.  With a changed hash the chain waits for
    [node.pin.add]; otherwise [promises] is empty, [Promise.all([])] fulfils
    with the empty array and the second [then] runs. *)
Definition tick_resolved (cfg : Config) (id : nat) (h : string) (s : State)
  : State :=
  if JS.strict_neq h (lastIPFSHash s) then
    let s1 := emit [Log INFO ("Detected new checkpoints IPFS hash: " ++ h)] s in
    let s2 := set_lastIPFSHash h s1 in
    let s3 := emit [Log INFO ("Attempting to pin locally: " ++ h); PinAdd h] s2 in
    let s4 := if isTesting cfg then new_pingTimer h s3 else s3 in
    set_stage id (Pinning h) s4
  else tick_results cfg id h 0 s.

(** The [node.pin.ls] callback of [cleanPins], lines 144-162.  All [unpin]
    calls are made inside the [forEach], before any of them settles. *)
Definition cleanPins_listed (id : nat) (hashToSave : option string)
    (r : Settled PinSet) (s : State) : State :=
  match r with
  | inl err => tick_catch id err s
  | inr pinset =>
      let removedPins := cleanPins_forEach hashToSave pinset in
      let s1 := emit (map PinRm removedPins) s in
      match removedPins with
      | [] => tick_unpinned id removedPins s1
      | _ :: _ => set_stage id (Unpinning removedPins removedPins) s1
      end
  end.

(** [l] without the first occurrence of [h]. *)
Fixpoint remove_first (h : string) (l : list string) : list string :=
  match l with
  | [] => []
  | x :: l' => if String.eqb x h then l' else x :: remove_first h l'
  end.

Definition mem (h : string) (l : list string) : bool :=
  existsb (String.eqb h) l.

(** The [node.pin.rm] callback of [unpin], lines 137-140, under the
    [Promise.all] of line 157: the first rejection rejects [cleanPins] (line
    160) and the chain goes to its [catch]; once every [unpin] has resolved,
    [cleanPins] resolves with [removedPins]. *)
Definition unpin_settled (id : nat) (removedPins pending : list string)
    (h : string) (r : option string) (s : State) : State :=
  if mem h pending then
    match r with
    | Some err => tick_catch id err s
    | None =>
        match remove_first h pending with
        | [] => tick_unpinned id removedPins s
        | pending' => set_stage id (Unpinning removedPins pending') s
        end
    end
  else s.

(** The delay of the watchdog timer in milliseconds, line 219. *)
Definition watchdog_delay (cfg : Config) : Z := 1000 * 60 * testMinutes cfg.

(** The watchdog of lines 215-219, armed in a test run only. *)
Definition watchdog (cfg : Config) (s : State) : State :=
  if isTesting cfg then
    process_exit 0
      (emit [Log ERROR ("Could not pin " ++ JS.show (lastIPFSHash s)
                          ++ " within test period. Check your Internet connection and try again. Cancelling test...")]
            s)
  else s.

(** ** The event loop *)

(** One completion delivered by the event loop.  [id] is the chain (the
    tick, in firing order) whose pending call completes; a reply to
    [node.pin.add] or [node.pin.rm] carries [None] on success and the error on
    failure. *)
Inductive Event :=
| Tick
| DnsReply (id : nat) (answer : DnsAnswer)
| AddReply (id : nat) (r : option string)
| LsReply (id : nat) (r : Settled PinSet)
| RmReply (id : nat) (h : string) (r : option string)
| PingTick (k : nat)
| Watchdog.

(** Run the callback that the event wakes up.  A reply that no chain is
    waiting for, and any event after [process.exit], changes nothing. *)
Definition handle (cfg : Config) (s : State) (ev : Event) : State :=
  match exited s with
  | Some _ => s
  | None =>
      match ev with
      | Tick => emit [ResolveTxt (dnslink_name cfg)] (new_chain s)
      | DnsReply id answer =>
          match stage_of id s with
          | Some Resolving =>
              match getLatestCheckpointsIPFSHash cfg answer with
              | inl err => tick_catch id err s
              | inr h => tick_resolved cfg id h s
              end
          | _ => s
          end
      | AddReply id r =>
          match stage_of id s with
          | Some (Pinning newHash) =>
              match r with
              | Some err => tick_catch id err s
              | None => tick_results cfg id newHash 1 s
              end
          | _ => s
          end
      | LsReply id r =>
          match stage_of id s with
          | Some (Listing hashToSave) => cleanPins_listed id hashToSave r s
          | _ => s
          end
      | RmReply id h r =>
          match stage_of id s with
          | Some (Unpinning removedPins pending) =>
              unpin_settled id removedPins pending h r s
          | _ => s
          end
      | PingTick k =>
          match nth_error (pingTimers s) k with
          | Some h => emit [Log DEBUG ("Waiting for pin of: " ++ h)] s
          | None => s
          end
      | Watchdog => watchdog cfg s
      end
  end.

(** A run of the event loop. *)
Definition run (cfg : Config) (s : State) (evs : list Event) : State :=
  fold_left (handle cfg) evs s.

(** ** The content store behind [node.pin] and one sequential pass *)

(** Modelled from the spec: the IPFS node is an external library, absent from
    the sources; section 6 gives its operations ([addPin], [listPins],
    [removePin], each succeeding or failing) and section 3 its pin records.
    [store_add] adds a Direct pin for the identifier unless one is there,
    [store_rm] removes the Direct pins of the identifier.  Pin records carry no
    owner, so the transitive release of Indirect pins is not modelled. *)
Definition store_add (h : string) (store : PinSet) : PinSet :=
  if existsb (fun pin => String.eqb (hash pin) h && is_direct pin) store
  then store
  else store ++ [{| hash := h; type := "recursive" |}].

Definition store_rm (h : string) (store : PinSet) : PinSet :=
  filter (fun pin => negb (String.eqb (hash pin) h && is_direct pin)) store.

(** Which store calls fail during a pass, and with which error. *)
Record Faults := {
  add_fault : string -> option string;
  ls_fault : option string;
  rm_fault : string -> option string
}.

Definition no_faults : Faults :=
  {| add_fault := fun _ => None; ls_fault := None; rm_fault := fun _ => None |}.

Definition World : Type := (State * PinSet)%type.

(** The store settles the [node.pin.add] the chain waits for, if any. *)
Definition answer_add (cfg : Config) (f : Faults) (id : nat) (w : World) : World :=
  match stage_of id (fst w) with
  | Some (Pinning h) =>
      match add_fault f h with
      | Some err => (handle cfg (fst w) (AddReply id (Some err)), snd w)
      | None => (handle cfg (fst w) (AddReply id None), store_add h (snd w))
      end
  | _ => w
  end.

(** The store answers [node.pin.ls] with its current pins. *)
Definition answer_ls (cfg : Config) (f : Faults) (id : nat) (w : World) : World :=
  match stage_of id (fst w) with
  | Some (Listing _) =>
      match ls_fault f with
      | Some err => (handle cfg (fst w) (LsReply id (inl err)), snd w)
      | None => (handle cfg (fst w) (LsReply id (inr (snd w))), snd w)
      end
  | _ => w
  end.

(** The store settles one [node.pin.rm] call. *)
Definition answer_rm (cfg : Config) (f : Faults) (id : nat) (w : World)
    (h : string) : World :=
  match rm_fault f h with
  | Some err => (handle cfg (fst w) (RmReply id h (Some err)), snd w)
  | None => (handle cfg (fst w) (RmReply id h None), store_rm h (snd w))
  end.

(** The store settles every [node.pin.rm] call issued, in call order, also
    those issued before one of them failed. *)
Definition answer_rms (cfg : Config) (f : Faults) (id : nat) (w : World) : World :=
  match stage_of id (fst w) with
  | Some (Unpinning removedPins _) => fold_left (answer_rm cfg f id) removedPins w
  | _ => w
  end.

(** One reconciliation pass run alone: a tick fires, DNS answers [answer],
    and the store settles each call of the chain before anything else
    happens. *)
Definition pass (cfg : Config) (f : Faults) (answer : DnsAnswer) (w : World)
  : World :=
  let id := length (chains (fst w)) in
  let s1 := handle cfg (fst w) Tick in
  let s2 := handle cfg s1 (DnsReply id answer) in
  answer_rms cfg f id (answer_ls cfg f id (answer_add cfg f id (s2, snd w))).

(** The Direct subset of a pin set, and the Indirect one. *)
Definition direct_pins (store : PinSet) : PinSet := filter is_direct store.
Definition indirect_pins (store : PinSet) : PinSet := filter is_indirect store.

(** ** What the spec says the resolver extracts *)

Fixpoint has_slash (s : string) : bool :=
  match s with
  | EmptyString => false
  | String c s' => Ascii.eqb c "/" || has_slash s'
  end.

(** The spec's words: the substring after the final ['/'] of [s]; a string
    without ['/'] has no prefix to strip and is taken whole. *)
Fixpoint after_final_slash (s : string) : string :=
  match s with
  | EmptyString => EmptyString
  | String c s' =>
      if has_slash s' then after_final_slash s'
      else if Ascii.eqb c "/" then s'
      else String c s'
  end.

(** The resolver's three failure conditions. *)
Definition dns_failure (answer : DnsAnswer) : Prop :=
  (exists err, answer = DnsErr err)
  \/ answer = DnsRecords []
  \/ (exists rest, answer = DnsRecords ([] :: rest)).

(** The first string of the first record, when there is one. *)
Definition first_string (answer : DnsAnswer) : option string :=
  match answer with
  | DnsRecords ((record :: _) :: _) => Some record
  | _ => None
  end.

(** ** A pass read sequentially

    What [pass] amounts to, written without the event loop; [pass_outcome_eq]
    below proves that it is what [pass] computes. *)

(** The store after one [node.pin.rm]. *)
Definition rm_step (f : Faults) (store : PinSet) (h : string) : PinSet :=
  match rm_fault f h with
  | Some _ => store
  | None => store_rm h store
  end.

(** The error of the first removal that fails, in call order. *)
Fixpoint first_fault (f : Faults) (hs : list string) : option string :=
  match hs with
  | [] => None
  | h :: hs' =>
      match rm_fault f h with
      | Some err => Some err
      | None => first_fault f hs'
      end
  end.

Definition prune_report (f : Faults) (targets : list string) : list Effect :=
  match first_fault f targets with
  | Some err => [Log WARN err]
  | None => map unpinned_line targets
  end.

Definition prune_effects (f : Faults) (hashToSave : option string)
    (store : PinSet) : list Effect :=
  match ls_fault f with
  | Some err => [Log WARN err]
  | None =>
      map PinRm (cleanPins_forEach hashToSave store)
        ++ prune_report f (cleanPins_forEach hashToSave store)
  end.

Definition prune_store (f : Faults) (hashToSave : option string)
    (store : PinSet) : PinSet :=
  match ls_fault f with
  | Some _ => store
  | None => fold_left (rm_step f) (cleanPins_forEach hashToSave store) store
  end.

Definition after_pass (s : State) (last : option string) (st : Stage)
    (pings : list string) (es : list Effect) (ex : option Z) : State :=
  {| lastIPFSHash := last;
     chains := chains s ++ [st];
     pingTimers := pingTimers s ++ pings;
     out := out s ++ es;
     exited := ex |}.

Definition pass_outcome (cfg : Config) (f : Faults) (answer : DnsAnswer)
    (s : State) (store : PinSet) : World :=
  let query := ResolveTxt (dnslink_name cfg) in
  match getLatestCheckpointsIPFSHash cfg answer with
  | inl err =>
      (after_pass s (lastIPFSHash s) Done [] [query; Log WARN err] None, store)
  | inr h =>
      if JS.strict_neq h (lastIPFSHash s) then
        let pings := if isTesting cfg then [h] else [] in
        let attempt := [query;
                        Log INFO ("Detected new checkpoints IPFS hash: " ++ h);
                        Log INFO ("Attempting to pin locally: " ++ h);
                        PinAdd h] in
        match add_fault f h with
        | Some err =>
            (after_pass s (Some h) Done pings (attempt ++ [Log WARN err]) None,
             store)
        | None =>
            let pinned := Log INFO ("Pinned successfully: " ++ h) in
            if isTesting cfg then
              (after_pass s (Some h) (Pinning h) pings
                 (attempt ++ [pinned; Log DEBUG "Test completed. Stopping...";
                              Exit 0])
                 (Some 0%Z),
               store_add h store)
            else
              (after_pass s (Some h) Done pings
                 (attempt ++ [pinned; PinLs]
                    ++ prune_effects f (Some h) (store_add h store))
                 None,
               prune_store f (Some h) (store_add h store))
        end
      else
        (after_pass s (lastIPFSHash s) Done []
           ([query; PinLs] ++ prune_effects f (lastIPFSHash s) store) None,
         prune_store f (lastIPFSHash s) store)
  end.

(** The identifiers of the [node.pin.rm] calls in a trace. *)
Definition rm_calls (es : list Effect) : list string :=
  flat_map (fun e => match e with PinRm h => [h] | _ => [] end) es.

(** The pins that survive the removal calls [hs]: all but the Direct pins of
    an identifier whose removal succeeded. *)
Definition survives (f : Faults) (hs : list string) (pin : Pin) : bool :=
  negb (is_direct pin
        && existsb (fun h => String.eqb (hash pin) h
                             && match rm_fault f h with
                                | Some _ => false
                                | None => true
                                end) hs).

(** ** Scenarios *)

(** A TXT answer of the expected shape, [dnslink=/ipfs/<identifier>]. *)
Definition dnslink (h : string) : DnsAnswer :=
  DnsRecords [[("dnslink=/ipfs/" ++ h)%string]].

(** A process whose [lastIPFSHash] is [h] and that has nothing in flight. *)
Definition idle_with (h : string) : State := set_lastIPFSHash h initial.

Definition direct (h : string) : Pin := {| hash := h; type := "direct" |}.
Definition recursive (h : string) : Pin := {| hash := h; type := "recursive" |}.
Definition indirect (h : string) : Pin := {| hash := h; type := "indirect" |}.

(** Events of which every DNS answer fails or resolves to [X]. *)
Definition resolves_only (cfg : Config) (X : string) (ev : Event) : bool :=
  match ev with
  | DnsReply _ answer =>
      match getLatestCheckpointsIPFSHash cfg answer with
      | inl _ => true
      | inr h => String.eqb h X
      end
  | _ => true
  end.

(** ** Reading a trace *)

(** The identifiers of the [node.pin.add] calls in a trace, oldest first. *)
Definition pin_adds (es : list Effect) : list string :=
  flat_map (fun e => match e with PinAdd h => [h] | _ => [] end) es.

(** The number of [DNS.resolveTxt] calls, of [node.pin.ls] calls and of
    [process.exit] calls in a trace. *)
Definition resolve_count (es : list Effect) : nat :=
  length (filter (fun e => match e with ResolveTxt _ => true | _ => false end) es).

Definition ls_count (es : list Effect) : nat :=
  length (filter (fun e => match e with PinLs => true | _ => false end) es).

Definition exit_count (es : list Effect) : nat :=
  length (filter (fun e => match e with Exit _ => true | _ => false end) es).

Fixpoint last_opt {A : Type} (l : list A) : option A :=
  match l with
  | [] => None
  | [x] => Some x
  | _ :: l' => last_opt l'
  end.

(** No two neighbours of the list are equal. *)
Fixpoint distinct_neighbours (l : list string) : Prop :=
  match l with
  | x :: (y :: _) as l' => x <> y /\ distinct_neighbours l'
  | _ => True
  end.

Definition tick_count (evs : list Event) : nat :=
  length (filter (fun ev => match ev with Tick => true | _ => false end) evs).

(** A chain that has not reached its listing call yet. *)
Definition before_listing (st : Stage) : bool :=
  match st with
  | Resolving | Pinning _ => true
  | _ => false
  end.

(** What every chain of a running program satisfies: a chain waits for its
    pin-add only once [lastIPFSHash] is set, and [cleanPins] was called with
    an identifier. *)
Definition stage_ok (last : option string) (st : Stage) : Prop :=
  match st with
  | Pinning _ => last <> None
  | Listing hashToSave => hashToSave <> None
  | _ => True
  end.

Definition is_resolving (st : Stage) : bool :=
  match st with
  | Resolving => true
  | _ => false
  end.

Definition count_stages (P : Stage -> bool) (l : list Stage) : nat :=
  length (filter P l).

(** Passes run one after the other, each with its DNS answer. *)
Definition passes (cfg : Config) (f : Faults) (answers : list DnsAnswer)
    (w : World) : World :=
  fold_left (fun w answer => pass cfg f answer w) answers w.

(** The error that a failing DNS answer rejects with. *)
Definition resolver_error (cfg : Config) (answer : DnsAnswer) : string :=
  match getLatestCheckpointsIPFSHash cfg answer with
  | inl err => err
  | inr _ => ""
  end.

Definition all_ok (f : Faults) : Prop :=
  (forall h, add_fault f h = None) /\ ls_fault f = None
  /\ (forall h, rm_fault f h = None).

(** ** Start-up: environment, node creation and the readiness gate
    (lines 19-25 and 49-110, 167, 213-220) *)

(** [process.env.X || d]: an unset variable and the empty string are both
    falsy. *)
Definition or_default (v : option string) (d : string) : string :=
  match v with
  | Some (String c s) => String c s
  | _ => d
  end.

(** [process.env.X || false], kept as an option: [None] is [false]. *)
Definition or_false (v : option string) : option string :=
  match v with
  | Some (String c s) => Some (String c s)
  | _ => None
  end.

(** [a.indexOf(x)]: the index of the first element equal to [x], [-1] when
    there is none. *)
Fixpoint indexOf (x : string) (a : list string) : Z :=
  match a with
  | [] => (-1)%Z
  | y :: a' =>
      if String.eqb y x then 0%Z
      else let i := indexOf x a' in
           if Z.eqb i (-1) then (-1)%Z else (i + 1)%Z
  end.

(** What the program reads from its surroundings: the five environment
    variables, [path.join(os.homedir(), '/TurtleCoinIPFS')] as computed by
    Node, and [process.argv]. *)
Record Env := {
  IPFS_HOST : option string;
  IPFS_PORT : option string;
  IPFS_REPO_PATH : option string;
  CHECKPOINTS_HOSTNAME : option string;
  TEST_MAXIMUM_MINUTES : option string;
  home_repo_path : string;
  argv : list string
}.

Record Settings := {
  ipfsHost : option string;
  ipfsPort : string;
  ipfsRepoPath : string;
  config : Config
}.

(** Lines 19-25.  [toNumber] is JavaScript's string-to-number coercion, which
    [1000 * 60 * testMinutes] applies when the variable is set; the port is
    kept as [util.format('%s', ...)] shows it. *)
Definition settings_of (toNumber : string -> Z) (env : Env) : Settings :=
  {| ipfsHost := or_false (IPFS_HOST env);
     ipfsPort := or_default (IPFS_PORT env) "5001";
     ipfsRepoPath := or_default (IPFS_REPO_PATH env) (home_repo_path env);
     config :=
       {| checkpointsHostname :=
            or_default (CHECKPOINTS_HOSTNAME env) "ipfs.moncoin.io";
          isTesting := negb (Z.eqb (indexOf "test" (skipn 2 (argv env))) (-1));
          testMinutes :=
            match or_false (TEST_MAXIMUM_MINUTES env) with
            | Some v => toNumber v
            | None => 15%Z
            end |} |}.

(** What start-up does: [Logger] lines, creating the embedded node
    ([IPFS.create], with the repository path before [path.resolve]) or
    connecting to a remote one ([IPFSHTTP]), polling the swarm
    ([node.swarm.peers]), and [setTimeout] of the gate. *)
Inductive BootEffect :=
| BLog (level : Level) (message : string)
| CreateNode (repo : string)
| ConnectNode (host port : string)
| SwarmPeers
| SetTimeout (ms : Z).

(** Where the main function stands: waiting for [IPFS.create], for the
    [node.swarm.peers] callback of [isReady], for the 5 s timer of [isReady],
    or past line 213 with the reconciliation loop running. *)
Inductive Phase := Creating | Polling | Sleeping | Running.

Record Proc := {
  phase : Phase;
  embedded : bool;             (* the node was made by [IPFS.create] *)
  boot : list BootEffect;      (* start-up output, oldest first *)
  armed : option Z;            (* delay of the test watchdog, once set *)
  loop : State                 (* the reconciliation loop *)
}.

(** Lines 213-220: tick right away, then arm the watchdog in a test run. *)
Definition start_loop (st : Settings) (emb : bool) (b : list BootEffect) : Proc :=
  {| phase := Running;
     embedded := emb;
     boot := b;
     armed := if isTesting (config st)
              then Some (watchdog_delay (config st)) else None;
     loop := handle (config st) initial Tick |}.

(** The main function up to its first [await] (lines 50-61), or to the end
    when the node is remote. *)
Definition start (st : Settings) : Proc :=
  let hello := if isTesting (config st)
               then [BLog DEBUG "Starting test run..."] else [] in
  match ipfsHost st with
  | Some host =>
      start_loop st false
        (hello ++ [BLog INFO ("Using IPFS node at " ++ host ++ ":" ++ ipfsPort st);
                   ConnectNode host (ipfsPort st)])
  | None =>
      {| phase := Creating;
         embedded := true;
         boot := hello ++ [BLog INFO ("Starting IPFS node in: " ++ ipfsRepoPath st);
                           CreateNode (ipfsRepoPath st)];
         armed := None;
         loop := initial |}
  end.

Inductive ProcEvent :=
| NodeCreated                       (* [IPFS.create] resolved *)
| PeersReply (r : Settled nat)      (* [node.swarm.peers]: error or [peers.length] *)
| TimeoutFired                      (* the 5 s timer of [isReady] *)
| NodeError (error : string)        (* the node emitted ['error'] *)
| LoopEvent (ev : Event).

Definition boot_emit (es : list BootEffect) (p : Proc) : Proc :=
  {| phase := phase p; embedded := embedded p; boot := boot p ++ es;
     armed := armed p; loop := loop p |}.

Definition set_phase (ph : Phase) (p : Proc) : Proc :=
  {| phase := ph; embedded := embedded p; boot := boot p;
     armed := armed p; loop := loop p |}.

Definition set_loop (s : State) (p : Proc) : Proc :=
  {| phase := phase p; embedded := embedded p; boot := boot p;
     armed := armed p; loop := s |}.

(** The [check] function of [isReady] (lines 89-99) on the answer of
    [node.swarm.peers]: an error and an empty list both retry in 5 s. *)
Definition isReady_check (st : Settings) (r : Settled nat) (p : Proc) : Proc :=
  match r with
  | inl _ => set_phase Sleeping (boot_emit [SetTimeout (1000 * 5)] p)
  | inr O => set_phase Sleeping (boot_emit [SetTimeout (1000 * 5)] p)
  | inr (S _) =>
      start_loop st (embedded p)
        (boot p ++ [BLog INFO "IPFS node connected to swarm..."])
  end.

(** One event of the whole process.  The ['error'] handler is attached to an
    embedded node once it is created (line 80). *)
Definition proc_handle (st : Settings) (p : Proc) (ev : ProcEvent) : Proc :=
  match exited (loop p) with
  | Some _ => p
  | None =>
      match ev, phase p with
      | NodeCreated, Creating =>
          set_phase Polling
            (boot_emit [BLog INFO "IPFS node started";
                        BLog INFO "Waiting for IPFS node to connect to swarm...";
                        SwarmPeers] p)
      | PeersReply r, Polling => isReady_check st r p
      | TimeoutFired, Sleeping => set_phase Polling (boot_emit [SwarmPeers] p)
      | NodeError error, Creating => p
      | NodeError error, Running =>
          if embedded p then set_loop (emit [Log ERROR error] (loop p)) p else p
      | NodeError error, _ =>
          if embedded p then boot_emit [BLog ERROR error] p else p
      | LoopEvent e, Running => set_loop (handle (config st) (loop p) e) p
      | _, _ => p
      end
  end.

Definition proc_run (st : Settings) (p : Proc) (evs : list ProcEvent) : Proc :=
  fold_left (proc_handle st) evs p.

Definition swarm_polls (b : list BootEffect) : nat :=
  length (filter (fun e => match e with SwarmPeers => true | _ => false end) b).

Definition retry_timers (b : list BootEffect) : nat :=
  length (filter (fun e => match e with SetTimeout _ => true | _ => false end) b).

(** A peers answer that opens the gate. *)
Definition opens_gate (ev : ProcEvent) : bool :=
  match ev with
  | PeersReply (inr (S _)) => true
  | _ => false
  end.

(** A peers answer that keeps the gate closed: an error or an empty list. *)
Definition no_peers (r : Settled nat) : bool :=
  match r with
  | inr (S _) => false
  | _ => true
  end.

(** The events of a process that are events of the reconciliation loop. *)
Definition loop_events (evs : list ProcEvent) : list Event :=
  flat_map (fun ev => match ev with LoopEvent e => [e] | _ => [] end) evs.

(** The pending timers of [isReady] all wait 5 s. *)
Definition retry_delay_ok (e : BootEffect) : Prop :=
  match e with
  | SetTimeout ms => ms = 5000%Z
  | _ => True
  end.

(** How polls and retry timers of [isReady] relate in each phase; only an
    embedded node goes through the gate. *)
Definition poll_balance (p : Proc) : Prop :=
  match phase p with
  | Creating =>
      embedded p = true
      /\ swarm_polls (boot p) = 0 /\ retry_timers (boot p) = 0
  | Polling =>
      embedded p = true /\ swarm_polls (boot p) = S (retry_timers (boot p))
  | Sleeping =>
      embedded p = true /\ swarm_polls (boot p) = retry_timers (boot p)
  | Running =>
      if embedded p
      then swarm_polls (boot p) = S (retry_timers (boot p))
      else swarm_polls (boot p) = 0 /\ retry_timers (boot p) = 0
  end.

(** * Properties *)

(** ** Strings *)

Section Strings.

Lemma has_slash_false_no_slash s : has_slash s = false <-> no_slash s.
Proof.
  induction s as [|c s IH]; simpl.
  - tauto.
  - rewrite orb_false_iff, IH, Ascii.eqb_neq. tauto.
Qed.

Lemma split_without_slash s :
  has_slash s = false -> JS.split "/" s = (s, []).
Proof.
  induction s as [|c s IH]; simpl; intros H.
  - reflexivity.
  - apply orb_false_iff in H as [Hc Hs].
    rewrite (IH Hs), Hc. reflexivity.
Qed.

Lemma split_with_slash s :
  has_slash s = true -> snd (JS.split "/" s) <> [].
Proof.
  induction s as [|c s IH]; simpl; intros H.
  - discriminate.
  - destruct (JS.split "/" s) as [seg rest] eqn:E.
    destruct (Ascii.eqb c "/") eqn:Hc; simpl in *.
    + discriminate.
    + auto.
Qed.

Lemma last_default_irrelevant (l : list string) d d' :
  l <> [] -> last l d = last l d'.
Proof.
  induction l as [|x l IH]; intros H.
  - congruence.
  - destruct l as [|y l].
    + reflexivity.
    + change (last (y :: l) d = last (y :: l) d'). apply IH. discriminate.
Qed.

(** The code's [split('/').pop()] is the spec's "after the final slash". *)
Lemma pop_split_after_final_slash s :
  JS.pop (JS.split "/" s) = after_final_slash s.
Proof.
  induction s as [|c s IH]; simpl.
  - reflexivity.
  - destruct (has_slash s) eqn:Hs.
    + pose proof (split_with_slash s Hs) as Hne.
      destruct (JS.split "/" s) as [seg rest] eqn:E. simpl in Hne.
      rewrite <- IH. unfold JS.pop.
      destruct (Ascii.eqb c "/"); simpl snd; simpl fst.
      * destruct rest as [|r rest]; [congruence|].
        change (last (seg :: r :: rest) "") with (last (r :: rest) "").
        apply last_default_irrelevant. discriminate.
      * apply last_default_irrelevant. exact Hne.
    + rewrite (split_without_slash s Hs).
      destruct (Ascii.eqb c "/"); reflexivity.
Qed.

Lemma after_final_slash_no_slash s : no_slash (after_final_slash s).
Proof.
  induction s as [|c s IH]; simpl.
  - exact I.
  - destruct (has_slash s) eqn:Hs; [exact IH|].
    destruct (Ascii.eqb c "/") eqn:Hc.
    + apply has_slash_false_no_slash. exact Hs.
    + simpl. split.
      * apply Ascii.eqb_neq. exact Hc.
      * apply has_slash_false_no_slash. exact Hs.
Qed.

(** [after_final_slash s] is a suffix of [s] that follows a ['/'], or all
    of [s] when [s] has none. *)
Lemma after_final_slash_suffix s :
  (exists pre, s = (pre ++ "/" ++ after_final_slash s)%string)
  \/ (no_slash s /\ after_final_slash s = s).
Proof.
  induction s as [|c s IH]; simpl.
  - right. split; [exact I | reflexivity].
  - destruct (has_slash s) eqn:Hs.
    + left. destruct IH as [[pre Hpre] | [Hno _]].
      * exists (String c pre). simpl. f_equal. exact Hpre.
      * apply has_slash_false_no_slash in Hno. congruence.
    + destruct (Ascii.eqb c "/") eqn:Hc.
      * left. exists "". apply Ascii.eqb_eq in Hc. subst c. reflexivity.
      * right. split; [|reflexivity]. split.
        -- apply Ascii.eqb_neq. exact Hc.
        -- apply has_slash_false_no_slash. exact Hs.
Qed.

End Strings.

(** ** The resolver *)

Lemma resolver_fails_iff cfg answer :
  dns_failure answer <-> exists e, getLatestCheckpointsIPFSHash cfg answer = inl e.
Proof.
  unfold dns_failure. split.
  - intros [[err ->] | [-> | [rest ->]]]; simpl; eauto.
  - intros [e He]. destruct answer as [err | [|[|record strs] rest]]; simpl in He.
    + left. eauto.
    + right. left. reflexivity.
    + right. right. eauto.
    + discriminate.
Qed.

Lemma resolver_first_string cfg answer record :
  first_string answer = Some record ->
  getLatestCheckpointsIPFSHash cfg answer = inr (JS.pop (JS.split "/" record)).
Proof.
  destruct answer as [err | [|[|r strs] rest]]; simpl; try discriminate.
  intros [= ->]. reflexivity.
Qed.

(** C5: the resolver queries TXT for [_dnslink.<hostname>]; it fails exactly
    when the query errors, or returns zero records or an empty first record;
    otherwise it returns the substring after the final ['/'] of the first
    record's first string (the whole string when it has no ['/']). *)
Theorem C5_resolver_fails_exactly_when (cfg : Config) (answer : DnsAnswer) :
  (forall s, exited s = None ->
     out (handle cfg s Tick)
     = out s ++ [ResolveTxt ("_dnslink." ++ checkpointsHostname cfg)])
  /\ (dns_failure answer
      <-> exists e, getLatestCheckpointsIPFSHash cfg answer = inl e)
  /\ (forall record, first_string answer = Some record ->
        getLatestCheckpointsIPFSHash cfg answer = inr (after_final_slash record)
        /\ no_slash (after_final_slash record)
        /\ ((exists pre, record = (pre ++ "/" ++ after_final_slash record)%string)
            \/ (no_slash record /\ after_final_slash record = record))).
Proof.
  split; [|split].
  - intros s Hs. unfold handle. rewrite Hs. reflexivity.
  - apply resolver_fails_iff.
  - intros record Hrec. split; [|split].
    + rewrite (resolver_first_string cfg answer record Hrec).
      f_equal. apply pop_split_after_final_slash.
    + apply after_final_slash_no_slash.
    + apply after_final_slash_suffix.
Qed.

Lemma C5_resolver_witness :
  getLatestCheckpointsIPFSHash default_config
    (DnsRecords [["dnslink=/ipfs/QmXYZ"]]) = inr "QmXYZ".
Proof.
  exact (proj1
           (proj2 (proj2 (C5_resolver_fails_exactly_when default_config
                            (DnsRecords [["dnslink=/ipfs/QmXYZ"]])))
              "dnslink=/ipfs/QmXYZ" eq_refl)).
Defined.

(** C10: the resolver succeeds whenever the first record has a first string,
    in particular a non-empty one, and hands on the last segment unchecked:
    for the record [dnslink=/ipfs/] it resolves with the empty string. *)
Theorem C10_resolver_does_not_validate (cfg : Config) (record : string)
    (strs : list string) (rest : list (list string)) :
  record <> "" ->
  getLatestCheckpointsIPFSHash cfg (DnsRecords ((record :: strs) :: rest))
  = inr (JS.pop (JS.split "/" record))
  /\ getLatestCheckpointsIPFSHash cfg (DnsRecords [["dnslink=/ipfs/"]]) = inr "".
Proof.
  intros _. split; reflexivity.
Qed.

Lemma C10_resolver_witness :
  "dnslink=/ipfs/" <> ""
  /\ getLatestCheckpointsIPFSHash default_config (DnsRecords [["dnslink=/ipfs/"]])
     = inr "".
Proof.
  split.
  - discriminate.
  - exact (proj1 (C10_resolver_does_not_validate default_config
                    "dnslink=/ipfs/" [] [] ltac:(discriminate))).
Defined.

(** ** Promise chains in the state *)

Section Chains.

Context {A : Type}.

Lemma nth_error_update_same (l : list A) i x :
  i < length l -> nth_error (update l i x) i = Some x.
Proof.
  revert i. induction l as [|y l IH]; intros [|i]; simpl; intros H;
    try lia; auto.
  apply IH. lia.
Qed.

Lemma nth_error_snoc (l : list A) x : nth_error (l ++ [x]) (length l) = Some x.
Proof.
  induction l as [|y l IH]; simpl; auto.
Qed.

Lemma update_snoc (l : list A) x y : update (l ++ [x]) (length l) y = l ++ [y].
Proof.
  induction l as [|z l IH]; simpl; auto.
  f_equal. exact IH.
Qed.

End Chains.

Lemma stage_of_bound id s st : stage_of id s = Some st -> id < length (chains s).
Proof.
  unfold stage_of. intros H. apply nth_error_Some. congruence.
Qed.

Ltac state_simpl :=
  unfold stage_of, tick_catch, tick_unpinned, set_stage, emit,
    set_lastIPFSHash, new_pingTimer, process_exit, new_chain;
  cbn [lastIPFSHash chains pingTimers out exited fst snd].

Ltac chain_simpl :=
  repeat (progress (state_simpl; rewrite ?nth_error_snoc, ?update_snoc)).

Lemma stage_of_set_stage id st s st0 :
  stage_of id s = Some st0 -> stage_of id (set_stage id st s) = Some st.
Proof.
  intros H. state_simpl. apply nth_error_update_same.
  exact (stage_of_bound _ _ _ H).
Qed.

(** ** Single steps of the tick handler *)

Lemma dns_reply_changed cfg s id answer h :
  exited s = None -> stage_of id s = Some Resolving ->
  getLatestCheckpointsIPFSHash cfg answer = inr h ->
  JS.strict_neq h (lastIPFSHash s) = true ->
  let s1 := handle cfg s (DnsReply id answer) in
  lastIPFSHash s1 = Some h
  /\ stage_of id s1 = Some (Pinning h)
  /\ exited s1 = None
  /\ out s1 = out s ++ [Log INFO ("Detected new checkpoints IPFS hash: " ++ h);
                        Log INFO ("Attempting to pin locally: " ++ h);
                        PinAdd h].
Proof.
  intros Hex Hst Hget Hneq. unfold handle. rewrite Hex, Hst, Hget.
  unfold tick_resolved. rewrite Hneq.
  pose proof (stage_of_bound _ _ _ Hst) as Hlt.
  destruct (isTesting cfg); state_simpl;
    rewrite nth_error_update_same by exact Hlt;
    rewrite <- app_assoc; auto.
Qed.

Lemma add_reply_failed cfg s id h err :
  exited s = None -> stage_of id s = Some (Pinning h) ->
  handle cfg s (AddReply id (Some err)) = tick_catch id err s.
Proof.
  intros Hex Hst. unfold handle. rewrite Hex, Hst. reflexivity.
Qed.

Lemma ls_reply cfg s id hashToSave r :
  exited s = None -> stage_of id s = Some (Listing hashToSave) ->
  handle cfg s (LsReply id r) = cleanPins_listed id hashToSave r s.
Proof.
  intros Hex Hst. unfold handle. rewrite Hex, Hst. reflexivity.
Qed.

Lemma rm_reply cfg s id removedPins pending h r :
  exited s = None -> stage_of id s = Some (Unpinning removedPins pending) ->
  handle cfg s (RmReply id h r) = unpin_settled id removedPins pending h r s.
Proof.
  intros Hex Hst. unfold handle. rewrite Hex, Hst. reflexivity.
Qed.

(** ** C1 *)

(** C1 as stated fails: with [lastIPFSHash = QmOld], DNS resolving to [QmNew]
    and the pin-add of [QmNew] rejected, [lastIPFSHash] ends as [QmNew]. *)
Lemma C1_counterexample_add_failure_keeps_new_hash :
  let s0 := handle default_config (idle_with "QmOld") Tick in
  let s1 := handle default_config s0 (DnsReply 0 (dnslink "QmNew")) in
  let s2 := handle default_config s1 (AddReply 0 (Some "Error: pin add failed")) in
  lastIPFSHash s0 = Some "QmOld"
  /\ out s1 = out s0 ++ [Log INFO "Detected new checkpoints IPFS hash: QmNew";
                         Log INFO "Attempting to pin locally: QmNew";
                         PinAdd "QmNew"]
  /\ out s2 = out s1 ++ [Log WARN "Error: pin add failed"]
  /\ lastIPFSHash s2 = Some "QmNew"
  /\ lastIPFSHash s2 <> lastIPFSHash s0.
Proof.
  vm_compute. repeat split; discriminate.
Qed.

(** C1, amended: when resolution yields an identifier different from
    [lastIPFSHash], the handler assigns it to [lastIPFSHash] at once, before
    the pin-add call is issued; if the pin-add then fails, a warning is logged,
    the chain ends without listing or pruning, and [lastIPFSHash] stays at the
    new identifier. *)
Theorem C1_lastIPFSHash_assigned_before_pin_add (cfg : Config) (s : State)
    (id : nat) (answer : DnsAnswer) (h : string) :
  exited s = None ->
  stage_of id s = Some Resolving ->
  getLatestCheckpointsIPFSHash cfg answer = inr h ->
  JS.strict_neq h (lastIPFSHash s) = true ->
  let s1 := handle cfg s (DnsReply id answer) in
  (lastIPFSHash s1 = Some h
   /\ stage_of id s1 = Some (Pinning h)
   /\ out s1 = out s ++ [Log INFO ("Detected new checkpoints IPFS hash: " ++ h);
                         Log INFO ("Attempting to pin locally: " ++ h);
                         PinAdd h])
  /\ forall err,
       let s2 := handle cfg s1 (AddReply id (Some err)) in
       lastIPFSHash s2 = Some h
       /\ stage_of id s2 = Some Done
       /\ out s2 = out s1 ++ [Log WARN err].
Proof.
  intros Hex Hst Hget Hneq s1.
  destruct (dns_reply_changed cfg s id answer h Hex Hst Hget Hneq)
    as (Hlast & Hst1 & Hex1 & Hout).
  fold s1 in Hlast, Hst1, Hex1, Hout.
  split; [auto|]. intros err s2. subst s2.
  rewrite (add_reply_failed cfg s1 id h err Hex1 Hst1).
  split; [|split].
  - exact Hlast.
  - apply (stage_of_set_stage id Done (emit [Log WARN err] s1) (Pinning h)).
    exact Hst1.
  - reflexivity.
Qed.

Lemma C1_lastIPFSHash_assigned_witness :
  let s := handle default_config (idle_with "QmOld") Tick in
  let s1 := handle default_config s (DnsReply 0 (dnslink "QmNew")) in
  JS.strict_neq "QmNew" (lastIPFSHash s) = true
  /\ lastIPFSHash (handle default_config s1 (AddReply 0 (Some "Error: pin add failed")))
     = Some "QmNew".
Proof.
  intros s s1. split; [reflexivity|].
  exact (proj1 (proj2 (C1_lastIPFSHash_assigned_before_pin_add default_config
                         s 0 (dnslink "QmNew") "QmNew"
                         eq_refl eq_refl eq_refl eq_refl)
                  "Error: pin add failed")).
Defined.

(** ** C2 *)

Lemma watchdog_exits_with_0 cfg s :
  isTesting cfg = true -> exited s = None ->
  exited (handle cfg s Watchdog) = Some 0%Z.
Proof.
  intros Ht Hex. unfold handle, watchdog. rewrite Hex, Ht. reflexivity.
Qed.

(** C2: a test run whose DNS query fails never pins; when the watchdog then
    fires, the process logs the error line and calls [process.exit(0)]: the
    exit status is 0, the status of a successful run, not a failure status. *)
Theorem C2_watchdog_exit_status_is_zero :
  let s := run test_config initial
             [Tick; DnsReply 0 (DnsErr "Error: queryTxt ENOTFOUND"); Watchdog] in
  watchdog_delay test_config = 900000%Z
  /\ (forall h, ~ In (PinAdd h) (out s))
  /\ last (out s) (Exit 1) = Exit 0
  /\ exited s = Some 0%Z.
Proof.
  vm_compute. split; [|split; [|split]]; try reflexivity.
  intros h H. repeat (destruct H as [H | H]; [discriminate|]). exact H.
Qed.

(** ** C3 *)

Lemma run_cons cfg s ev evs : run cfg s (ev :: evs) = run cfg (handle cfg s ev) evs.
Proof. reflexivity. Qed.

Lemma mem_true_iff h l : mem h l = true <-> In h l.
Proof.
  unfold mem. rewrite existsb_exists. split.
  - intros (x & Hx & He). apply String.eqb_eq in He. subst. exact Hx.
  - intros H. exists h. split; [exact H | apply String.eqb_refl].
Qed.

Lemma remove_first_permutation h l :
  In h l -> Permutation l (h :: remove_first h l).
Proof.
  induction l as [|x l IH]; simpl; intros H.
  - contradiction.
  - destruct (String.eqb x h) eqn:E.
    + apply String.eqb_eq in E. subst. reflexivity.
    + destruct H as [-> | H]; [rewrite String.eqb_refl in E; discriminate|].
      rewrite (IH H) at 1. apply perm_swap.
Qed.

Lemma permutation_remove_first h l pending :
  Permutation (h :: l) pending ->
  mem h pending = true /\ Permutation l (remove_first h pending).
Proof.
  intros HP.
  assert (Hin : In h pending) by (eapply Permutation_in; [exact HP | left; reflexivity]).
  split.
  - apply mem_true_iff. exact Hin.
  - apply Permutation_cons_inv with (a := h).
    rewrite HP. apply remove_first_permutation. exact Hin.
Qed.

(** Every [unpin] resolves, in whatever order: [cleanPins] resolves with
    [removedPins] and each of them gets its warning line. *)
Lemma unpin_all_resolved cfg id removedPins replies :
  forall pending s,
    pending <> [] -> Permutation replies pending ->
    exited s = None ->
    stage_of id s = Some (Unpinning removedPins pending) ->
    let s' := run cfg s (map (fun h => RmReply id h None) replies) in
    out s' = out s ++ map unpinned_line removedPins
    /\ stage_of id s' = Some Done.
Proof.
  induction replies as [|x rs IH]; intros pending s Hne HP Hex Hst.
  - apply Permutation_nil in HP. congruence.
  - destruct (permutation_remove_first x rs pending HP) as [Hmem HP'].
    simpl map. rewrite run_cons.
    rewrite (rm_reply cfg s id removedPins pending x None Hex Hst).
    unfold unpin_settled. rewrite Hmem.
    destruct (remove_first x pending) as [|p pending'] eqn:E.
    + apply Permutation_sym, Permutation_nil in HP'. subst rs. simpl. split.
      * reflexivity.
      * apply (stage_of_set_stage id Done _ _ Hst).
    + destruct (IH (p :: pending')
                  (set_stage id (Unpinning removedPins (p :: pending')) s))
        as [Hout Hdone]; auto.
      * discriminate.
      * apply (stage_of_set_stage id _ s _ Hst).
Qed.

(** Some [unpin] rejects after others have resolved: [cleanPins] rejects,
    the error is the only line logged, and the chain is over. *)
Lemma unpin_rejected cfg id removedPins h err rest oks :
  forall pending s,
    Permutation (oks ++ h :: rest) pending ->
    exited s = None ->
    stage_of id s = Some (Unpinning removedPins pending) ->
    let s' := run cfg s (map (fun x => RmReply id x None) oks
                           ++ [RmReply id h (Some err)]) in
    out s' = out s ++ [Log WARN err]
    /\ stage_of id s' = Some Done.
Proof.
  induction oks as [|x oks IH]; intros pending s HP Hex Hst.
  - simpl in *. destruct (permutation_remove_first h rest pending HP) as [Hmem _].
    rewrite (rm_reply cfg s id removedPins pending h (Some err) Hex Hst).
    unfold unpin_settled. rewrite Hmem. split.
    + reflexivity.
    + apply (stage_of_set_stage id Done _ _ Hst).
  - simpl app in HP. simpl map. rewrite <- app_comm_cons, run_cons.
    destruct (permutation_remove_first x _ pending HP) as [Hmem HP'].
    rewrite (rm_reply cfg s id removedPins pending x None Hex Hst).
    unfold unpin_settled. rewrite Hmem.
    destruct (remove_first x pending) as [|p pending'] eqn:E.
    + apply Permutation_sym, Permutation_nil in HP'. destruct oks; discriminate.
    + destruct (IH (p :: pending')
                  (set_stage id (Unpinning removedPins (p :: pending')) s))
        as [Hout Hdone]; auto.
      apply (stage_of_set_stage id _ s _ Hst).
Qed.

(** C3 as stated fails: of the three pins, [QmB] and [QmC] are to go; the
    removal of [QmB] succeeds and that of [QmC] fails; the tick logs the error
    and no "Unpinned hash" line, not even for [QmB]. *)
Lemma C3_counterexample_removed_pin_not_reported :
  let s := run default_config (idle_with "QmA")
             [Tick;
              DnsReply 0 (dnslink "QmA");
              LsReply 0 (inr [recursive "QmA"; recursive "QmB"; recursive "QmC"]);
              RmReply 0 "QmB" None;
              RmReply 0 "QmC" (Some "Error: not pinned")] in
  out s = [ResolveTxt "_dnslink.ipfs.moncoin.io"; PinLs;
           PinRm "QmB"; PinRm "QmC"; Log WARN "Error: not pinned"]
  /\ ~ In (unpinned_line "QmB") (out s).
Proof.
  vm_compute. split; [reflexivity|].
  intros H. repeat (destruct H as [H | H]; [discriminate|]). exact H.
Qed.

(** C3, amended: when the listing succeeds, every removal call of the batch
    is issued at once, before any of them settles, so a failing removal does
    not stop the others.  The report is all or nothing: if every removal
    succeeds (in whatever order), one "Unpinned hash" warning is logged per
    targeted identifier; as soon as one removal fails, that error is logged as
    the tick's single warning and no "Unpinned hash" line is logged, also for
    the identifiers already removed.  When the listing itself fails, the error
    is logged and no removal call is issued. *)
Theorem C3_pruning_reports_all_or_nothing (cfg : Config) (s : State) (id : nat)
    (hashToSave : option string) :
  exited s = None ->
  stage_of id s = Some (Listing hashToSave) ->
  (forall err,
     let s1 := handle cfg s (LsReply id (inl err)) in
     out s1 = out s ++ [Log WARN err] /\ stage_of id s1 = Some Done)
  /\ (forall pinset,
        let targets := cleanPins_forEach hashToSave pinset in
        let s1 := handle cfg s (LsReply id (inr pinset)) in
        out s1 = out s ++ map PinRm targets
        /\ (forall replies,
              Permutation replies targets ->
              let s2 := run cfg s1 (map (fun h => RmReply id h None) replies) in
              out s2 = out s1 ++ map unpinned_line targets
              /\ stage_of id s2 = Some Done)
        /\ (forall oks h rest err,
              Permutation (oks ++ h :: rest) targets ->
              let s2 := run cfg s1 (map (fun x => RmReply id x None) oks
                                      ++ [RmReply id h (Some err)]) in
              out s2 = out s1 ++ [Log WARN err]
              /\ stage_of id s2 = Some Done)).
Proof.
  intros Hex Hst. split.
  - intros err s1. subst s1. rewrite (ls_reply cfg s id hashToSave _ Hex Hst).
    simpl. split; [reflexivity|].
    apply (stage_of_set_stage id Done _ _ Hst).
  - intros pinset. cbv zeta.
    rewrite (ls_reply cfg s id hashToSave _ Hex Hst).
    unfold cleanPins_listed.
    destruct (cleanPins_forEach hashToSave pinset) as [|t targets'].
    + split; [|split].
      * simpl. rewrite !app_nil_r. reflexivity.
      * intros replies HP. apply Permutation_sym, Permutation_nil in HP.
        subst replies. simpl. rewrite !app_nil_r. split; [reflexivity|].
        apply (stage_of_set_stage id Done _ _ Hst).
      * intros oks h rest err HP.
        apply Permutation_sym, Permutation_nil in HP.
        destruct oks; discriminate.
    + split; [|split].
      * reflexivity.
      * intros replies HP.
        apply (unpin_all_resolved cfg id (t :: targets') replies (t :: targets')); auto.
        -- discriminate.
        -- apply (stage_of_set_stage id _ _ _ Hst).
      * intros oks h rest err HP.
        apply (unpin_rejected cfg id (t :: targets') h err rest oks (t :: targets')); auto.
        apply (stage_of_set_stage id _ _ _ Hst).
Qed.

Lemma C3_pruning_reports_witness :
  let s := run default_config (idle_with "QmA") [Tick; DnsReply 0 (dnslink "QmA")] in
  let s1 := handle default_config s
              (LsReply 0 (inr [recursive "QmA"; recursive "QmB"; recursive "QmC"])) in
  stage_of 0 s = Some (Listing (Some "QmA"))
  /\ out (run default_config s1
            [RmReply 0 "QmB" None; RmReply 0 "QmC" (Some "Error: not pinned")])
     = out s1 ++ [Log WARN "Error: not pinned"].
Proof.
  intros s s1. split; [reflexivity|].
  exact (proj1
           (proj2 (proj2 (proj2 (C3_pruning_reports_all_or_nothing default_config
                                   s 0 (Some "QmA") eq_refl eq_refl)
                            [recursive "QmA"; recursive "QmB"; recursive "QmC"]))
              ["QmB"] "QmC" [] "Error: not pinned" (Permutation_refl _))).
Defined.

(** ** C9 *)

Lemma no_PinAdd_in_PinRm l : existsb is_PinAdd (map PinRm l) = false.
Proof. induction l; simpl; auto. Qed.

Lemma no_PinAdd_in_unpinned l : existsb is_PinAdd (map unpinned_line l) = false.
Proof. induction l; simpl; auto. Qed.

Lemma existsb_is_PinAdd_false es :
  existsb is_PinAdd es = false -> forall h, ~ In (PinAdd h) es.
Proof.
  intros H h Hin.
  assert (Ht : existsb is_PinAdd es = true).
  { apply existsb_exists. exists (PinAdd h). split; [exact Hin | reflexivity]. }
  congruence.
Qed.

Ltac no_pin_add_branch :=
  state_simpl;
  match goal with
  | |- _ /\ _ => split; [assumption || reflexivity |]
  end;
  first
    [ exists []; split; [symmetry; apply app_nil_r | reflexivity]
    | eexists; split;
      [ rewrite <- ?app_assoc; reflexivity
      | rewrite ?existsb_app, ?no_PinAdd_in_PinRm, ?no_PinAdd_in_unpinned;
        reflexivity ] ].

(** While [lastIPFSHash] is [X] and DNS fails or keeps answering [X], no
    event makes the program call [node.pin.add], and [lastIPFSHash] stays. *)
Lemma handle_no_pin_add cfg X s ev :
  lastIPFSHash s = Some X ->
  resolves_only cfg X ev = true ->
  lastIPFSHash (handle cfg s ev) = Some X
  /\ exists es, out (handle cfg s ev) = out s ++ es
                /\ existsb is_PinAdd es = false.
Proof.
  intros Hlast Hev. unfold handle.
  destruct (exited s) eqn:Hex; [no_pin_add_branch|].
  destruct ev as [|id answer|id r|id r|id h r|k|]; simpl in Hev.
  - no_pin_add_branch.
  - destruct (stage_of id s) as [[| | | |]|] eqn:Hst; try no_pin_add_branch.
    destruct (getLatestCheckpointsIPFSHash cfg answer) as [err|h] eqn:Hget.
    + no_pin_add_branch.
    + apply String.eqb_eq in Hev. subst h.
      unfold tick_resolved, JS.strict_neq. rewrite Hlast, String.eqb_refl. simpl.
      unfold tick_results. simpl. no_pin_add_branch.
  - destruct (stage_of id s) as [[| | | |]|] eqn:Hst; try no_pin_add_branch.
    destruct r as [err|]; [no_pin_add_branch|].
    unfold tick_results. simpl. destruct (isTesting cfg); no_pin_add_branch.
  - destruct (stage_of id s) as [[| | | |]|] eqn:Hst; try no_pin_add_branch.
    unfold cleanPins_listed. destruct r as [err|pinset]; [no_pin_add_branch|].
    destruct (cleanPins_forEach hashToSave pinset) eqn:E; no_pin_add_branch.
  - destruct (stage_of id s) as [[| | | |]|] eqn:Hst; try no_pin_add_branch.
    unfold unpin_settled. destruct (mem h pending); [|no_pin_add_branch].
    destruct r as [err|]; [no_pin_add_branch|].
    destruct (remove_first h pending); no_pin_add_branch.
  - destruct (nth_error (pingTimers s) k); no_pin_add_branch.
  - unfold watchdog. destruct (isTesting cfg); no_pin_add_branch.
Qed.

Lemma run_no_pin_add cfg X evs :
  forall s,
    lastIPFSHash s = Some X ->
    forallb (resolves_only cfg X) evs = true ->
    lastIPFSHash (run cfg s evs) = Some X
    /\ exists es, out (run cfg s evs) = out s ++ es
                  /\ existsb is_PinAdd es = false.
Proof.
  induction evs as [|ev evs IH]; intros s Hlast Hall.
  - simpl. split; [exact Hlast|]. exists []. split; [symmetry; apply app_nil_r | reflexivity].
  - simpl in Hall. apply andb_true_iff in Hall as [Hev Hall].
    destruct (handle_no_pin_add cfg X s ev Hlast Hev) as (Hlast1 & es1 & Hout1 & Hno1).
    destruct (IH (handle cfg s ev) Hlast1 Hall) as (Hlast2 & es2 & Hout2 & Hno2).
    rewrite run_cons. split; [exact Hlast2|].
    exists (es1 ++ es2). split.
    + rewrite Hout2, Hout1, app_assoc. reflexivity.
    + rewrite existsb_app, Hno1, Hno2. reflexivity.
Qed.

(** C9: once the pin-add of a newly resolved [X] has been issued and has
    failed, [lastIPFSHash] is already [X]; whatever happens afterwards (ticks,
    replies, in any interleaving), as long as every DNS answer fails or
    resolves to [X] again, the program never calls [node.pin.add] again. *)
Theorem C9_failed_pin_add_is_not_retried (cfg : Config) (s : State) (id : nat)
    (answer : DnsAnswer) (X err : string) (evs : list Event) :
  exited s = None ->
  stage_of id s = Some Resolving ->
  getLatestCheckpointsIPFSHash cfg answer = inr X ->
  JS.strict_neq X (lastIPFSHash s) = true ->
  forallb (resolves_only cfg X) evs = true ->
  let s1 := handle cfg s (DnsReply id answer) in
  let s2 := handle cfg s1 (AddReply id (Some err)) in
  (exists es1, out s1 = out s ++ es1 /\ In (PinAdd X) es1)
  /\ out s2 = out s1 ++ [Log WARN err]
  /\ lastIPFSHash (run cfg s2 evs) = Some X
  /\ exists es, out (run cfg s2 evs) = out s2 ++ es
                /\ forall h, ~ In (PinAdd h) es.
Proof.
  intros Hex Hst Hget Hneq Hall s1 s2.
  destruct (dns_reply_changed cfg s id answer X Hex Hst Hget Hneq)
    as (Hlast1 & Hst1 & Hex1 & Hout1).
  fold s1 in Hlast1, Hst1, Hex1, Hout1.
  assert (Hs2 : s2 = tick_catch id err s1)
    by (apply (add_reply_failed cfg s1 id X err Hex1 Hst1)).
  assert (Hlast2 : lastIPFSHash s2 = Some X) by (rewrite Hs2; exact Hlast1).
  destruct (run_no_pin_add cfg X evs s2 Hlast2 Hall) as (Hlast & es & Hout & Hno).
  split; [|split; [|split]].
  - eexists. split; [exact Hout1|]. simpl. auto.
  - rewrite Hs2. reflexivity.
  - exact Hlast.
  - exists es. split; [exact Hout|]. apply existsb_is_PinAdd_false. exact Hno.
Qed.

Lemma C9_failed_pin_add_witness :
  let s := handle default_config initial Tick in
  let s1 := handle default_config s (DnsReply 0 (dnslink "QmX")) in
  let s2 := handle default_config s1 (AddReply 0 (Some "Error: pin add failed")) in
  let evs := [Tick; DnsReply 1 (dnslink "QmX");
              LsReply 1 (inr []); Tick; DnsReply 2 (dnslink "QmX")] in
  forallb (resolves_only default_config "QmX") evs = true
  /\ lastIPFSHash (run default_config s2 evs) = Some "QmX".
Proof.
  intros s s1 s2 evs. split; [reflexivity|].
  exact (proj1 (proj2 (proj2
           (C9_failed_pin_add_is_not_retried default_config s 0 (dnslink "QmX")
              "QmX" "Error: pin add failed" evs
              eq_refl eq_refl eq_refl eq_refl eq_refl)))).
Defined.

(** ** One pass, sequentially *)

Section Pass.

Variable cfg : Config.
Variable f : Faults.

Lemma handle_after_exit s ev c : exited s = Some c -> handle cfg s ev = s.
Proof. intros Hex. unfold handle. rewrite Hex. reflexivity. Qed.

Lemma pass_after_exit answer s store c :
  exited s = Some c -> pass cfg f answer (s, store) = (s, store).
Proof.
  intros Hex. unfold pass. cbn [fst snd].
  rewrite !(handle_after_exit s _ c Hex).
  assert (Hnone : stage_of (length (chains s)) s = None).
  { unfold stage_of. apply nth_error_None. lia. }
  unfold answer_add. cbn [fst snd]. rewrite Hnone.
  unfold answer_ls. cbn [fst snd]. rewrite Hnone.
  unfold answer_rms. cbn [fst snd]. rewrite Hnone. reflexivity.
Qed.

(** Replies that arrive once the chain is over are dropped. *)
Lemma answer_rms_after_done l hs :
  forall last pings o ex store,
    fold_left (answer_rm cfg f (length l)) hs
      ({| lastIPFSHash := last; chains := l ++ [Done]; pingTimers := pings;
          out := o; exited := ex |}, store)
    = ({| lastIPFSHash := last; chains := l ++ [Done]; pingTimers := pings;
          out := o; exited := ex |}, fold_left (rm_step f) hs store).
Proof.
  induction hs as [|h hs IH]; intros last pings o ex store; simpl.
  - reflexivity.
  - unfold answer_rm at 2, rm_step at 2, handle, stage_of.
    cbn [fst snd exited chains]. rewrite nth_error_snoc.
    destruct ex; destruct (rm_fault f h); apply IH.
Qed.

(** The batch of removals, settled in call order. *)
Lemma answer_rms_batch l removedPins pending :
  forall last pings o store,
    pending <> [] ->
    fold_left (answer_rm cfg f (length l)) pending
      ({| lastIPFSHash := last; chains := l ++ [Unpinning removedPins pending];
          pingTimers := pings; out := o; exited := None |}, store)
    = ({| lastIPFSHash := last; chains := l ++ [Done]; pingTimers := pings;
          out := o ++ match first_fault f pending with
                      | Some err => [Log WARN err]
                      | None => map unpinned_line removedPins
                      end;
          exited := None |},
       fold_left (rm_step f) pending store).
Proof.
  induction pending as [|h pending IH]; intros last pings o store Hne.
  - congruence.
  - cbn [fold_left first_fault].
    unfold answer_rm at 2, rm_step at 2, handle, stage_of.
    cbn [fst snd exited chains]. rewrite nth_error_snoc.
    unfold unpin_settled, mem. cbn [existsb remove_first].
    rewrite String.eqb_refl. cbn [orb].
    destruct (rm_fault f h) as [err|].
    + state_simpl. rewrite update_snoc. apply answer_rms_after_done.
    + destruct pending as [|h' pending].
      * state_simpl. rewrite update_snoc. reflexivity.
      * state_simpl. rewrite update_snoc. apply IH. discriminate.
Qed.

(** Listing and pruning, from the [node.pin.ls] call on. *)
Lemma prune_phase l hashToSave last pings o store :
  answer_rms cfg f (length l)
    (answer_ls cfg f (length l)
       ({| lastIPFSHash := last; chains := l ++ [Listing hashToSave];
           pingTimers := pings; out := o; exited := None |}, store))
  = ({| lastIPFSHash := last; chains := l ++ [Done]; pingTimers := pings;
        out := o ++ prune_effects f hashToSave store; exited := None |},
     prune_store f hashToSave store).
Proof.
  unfold answer_ls, prune_effects, prune_store. state_simpl.
  rewrite nth_error_snoc.
  destruct (ls_fault f) as [err|].
  - unfold handle, cleanPins_listed. state_simpl. rewrite nth_error_snoc.
    state_simpl. rewrite update_snoc.
    unfold answer_rms. state_simpl. rewrite nth_error_snoc. reflexivity.
  - unfold handle, cleanPins_listed. state_simpl. rewrite nth_error_snoc.
    unfold prune_report.
    destruct (cleanPins_forEach hashToSave store) as [|t targets].
    + state_simpl. rewrite update_snoc.
      unfold answer_rms. state_simpl. rewrite nth_error_snoc.
      cbn [map first_fault app]. rewrite !app_nil_r. reflexivity.
    + state_simpl. rewrite update_snoc.
      unfold answer_rms. state_simpl. rewrite nth_error_snoc.
      rewrite answer_rms_batch by discriminate.
      rewrite <- app_assoc. reflexivity.
Qed.

(** [pass] computes [pass_outcome]. *)
Lemma pass_outcome_eq answer s store :
  exited s = None ->
  pass cfg f answer (s, store) = pass_outcome cfg f answer s store.
Proof.
  destruct s as [last l pings o ex]. cbn [exited]. intros ->.
  unfold pass, pass_outcome, after_pass. cbn [fst snd chains].
  unfold handle at 2. state_simpl.
  unfold handle. chain_simpl.
  destruct (getLatestCheckpointsIPFSHash cfg answer) as [err|h].
  - unfold answer_add, answer_ls, answer_rms. chain_simpl.
    rewrite <- app_assoc, app_nil_r. reflexivity.
  - unfold tick_resolved. state_simpl.
    destruct (JS.strict_neq h last) eqn:Hneq.
    + unfold answer_add.
      destruct (isTesting cfg) eqn:Ht; chain_simpl;
        (destruct (add_fault f h) as [err|];
         [ unfold handle; chain_simpl;
           unfold answer_ls, answer_rms; chain_simpl;
           rewrite <- !app_assoc, ?app_nil_r; reflexivity
         | ]).
      * unfold handle, tick_results. chain_simpl.
        rewrite Ht. cbn [Nat.eqb andb]. chain_simpl.
        unfold answer_ls, answer_rms. chain_simpl.
        rewrite <- !app_assoc. reflexivity.
      * unfold handle, tick_results. chain_simpl.
        rewrite Ht. cbn [Nat.eqb andb]. chain_simpl.
        rewrite prune_phase. rewrite <- !app_assoc, ?app_nil_r. reflexivity.
    + unfold tick_results. cbn [Nat.eqb andb]. chain_simpl.
      unfold answer_add. chain_simpl.
      rewrite prune_phase. rewrite <- !app_assoc, ?app_nil_r. reflexivity.
Qed.

End Pass.

(** ** The removal set and the store *)

Lemma strict_eq_true_iff h v : JS.strict_eq h v = true <-> v = Some h.
Proof.
  unfold JS.strict_eq, JS.strict_neq. destruct v as [x|]; simpl.
  - rewrite negb_involutive, String.eqb_eq. split; congruence.
  - split; discriminate.
Qed.

Lemma strict_neq_false_iff h v : JS.strict_neq h v = false <-> v = Some h.
Proof.
  rewrite <- strict_eq_true_iff. unfold JS.strict_eq.
  destruct (JS.strict_neq h v); simpl; split; congruence.
Qed.

(** The removal set of [cleanPins]: the identifiers of the Direct pins that
    differ from [hashToSave]. *)
Lemma cleanPins_forEach_spec hashToSave pinset h :
  In h (cleanPins_forEach hashToSave pinset)
  <-> exists pin, In pin pinset /\ hash pin = h
                  /\ is_direct pin = true /\ hashToSave <> Some (hash pin).
Proof.
  induction pinset as [|p pinset IH]; simpl.
  - split; [contradiction | intros (pin & [] & _)].
  - destruct (JS.strict_eq (hash p) hashToSave) eqn:Eq.
    + rewrite IH. apply strict_eq_true_iff in Eq. split.
      * intros (pin & Hin & Hh & Hd & Hne). exists pin. auto.
      * intros (pin & [<- | Hin] & Hh & Hd & Hne); [contradiction|].
        exists pin. auto.
    + assert (Hne : hashToSave <> Some (hash p)).
      { intros H. apply strict_eq_true_iff in H. congruence. }
      fold (is_indirect p). destruct (is_indirect p) eqn:Ei.
      * rewrite IH. split.
        -- intros (pin & Hin & Hh & Hd & Hn). exists pin. auto.
        -- intros (pin & [<- | Hin] & Hh & Hd & Hn).
           ++ unfold is_direct in Hd. rewrite Ei in Hd. discriminate.
           ++ exists pin. auto.
      * simpl. rewrite IH. split.
        -- intros [<- | (pin & Hin & Hh & Hd & Hn)].
           ++ exists p. unfold is_direct. rewrite Ei. auto.
           ++ exists pin. auto.
        -- intros (pin & [<- | Hin] & Hh & Hd & Hn); [left; exact Hh|].
           right. exists pin. auto.
Qed.

Lemma filter_filter {A : Type} (P Q : A -> bool) (l : list A) :
  filter P (filter Q l) = filter (fun x => Q x && P x) l.
Proof.
  induction l as [|x l IH]; simpl.
  - reflexivity.
  - destruct (Q x); simpl; [destruct (P x)|]; rewrite IH; reflexivity.
Qed.

(** The store after a batch of removals. *)
Lemma fold_rm_step_survives f hs :
  forall store, fold_left (rm_step f) hs store = filter (survives f hs) store.
Proof.
  induction hs as [|h hs IH]; intros store; simpl.
  - unfold survives. simpl. symmetry.
    rewrite (filter_ext _ (fun _ => true)).
    + induction store as [|p store IHs]; simpl; congruence.
    + intros pin. rewrite andb_false_r. reflexivity.
  - rewrite IH. unfold rm_step, store_rm.
    destruct (rm_fault f h) as [err|] eqn:Ef.
    + apply filter_ext. intros pin. unfold survives. simpl.
      rewrite Ef, andb_false_r. reflexivity.
    + rewrite filter_filter. apply filter_ext. intros pin.
      unfold survives. simpl. rewrite Ef, andb_true_r.
      destruct (is_direct pin), (String.eqb (hash pin) h); reflexivity.
Qed.

Lemma survives_indirect f hs pin : is_indirect pin = true -> survives f hs pin = true.
Proof.
  intros H. unfold survives, is_direct. rewrite H. reflexivity.
Qed.

Lemma indirect_pins_after_removals f hs store :
  indirect_pins (fold_left (rm_step f) hs store) = indirect_pins store.
Proof.
  rewrite fold_rm_step_survives. unfold indirect_pins. rewrite filter_filter.
  apply filter_ext. intros pin.
  destruct (is_indirect pin) eqn:E.
  - rewrite (survives_indirect f hs pin E). reflexivity.
  - apply andb_false_r.
Qed.

Lemma store_add_present h store pin :
  In pin (direct_pins store) -> hash pin = h -> store_add h store = store.
Proof.
  intros Hin Hh. unfold store_add.
  assert (He : existsb (fun p => String.eqb (hash p) h && is_direct p) store = true).
  { apply existsb_exists. exists pin. apply filter_In in Hin as [Hin Hd].
    split; [exact Hin|]. rewrite Hh, String.eqb_refl, Hd. reflexivity. }
  rewrite He. reflexivity.
Qed.

(** ** Traces *)

Lemma rm_calls_app es es' : rm_calls (es ++ es') = rm_calls es ++ rm_calls es'.
Proof. unfold rm_calls. apply flat_map_app. Qed.

Lemma rm_calls_PinRm hs : rm_calls (map PinRm hs) = hs.
Proof. induction hs as [|h hs IH]; simpl; congruence. Qed.

Lemma rm_calls_unpinned hs : rm_calls (map unpinned_line hs) = [].
Proof. induction hs as [|h hs IH]; simpl; auto. Qed.

Lemma rm_calls_In h es : In (PinRm h) es <-> In h (rm_calls es).
Proof.
  unfold rm_calls. rewrite in_flat_map. split.
  - intros H. exists (PinRm h). split; [exact H | left; reflexivity].
  - intros (e & He & Hin). destruct e; simpl in Hin; try contradiction.
    destruct Hin as [-> | []]. exact He.
Qed.

Lemma rm_calls_prune_report f hs : rm_calls (prune_report f hs) = [].
Proof.
  unfold prune_report. destruct (first_fault f hs); [reflexivity|].
  apply rm_calls_unpinned.
Qed.

Lemma rm_calls_prune_effects f hashToSave store :
  rm_calls (prune_effects f hashToSave store)
  = match ls_fault f with
    | Some _ => []
    | None => cleanPins_forEach hashToSave store
    end.
Proof.
  unfold prune_effects. destruct (ls_fault f); [reflexivity|].
  rewrite rm_calls_app, rm_calls_PinRm, rm_calls_prune_report.
  apply app_nil_r.
Qed.

(** ** C4 *)

(** With arbitrary faults a pass run alone ends with its chain over, unless
    the process has exited. *)
Lemma pass_settles cfg f answer s store :
  exited s = None ->
  exited (fst (pass cfg f answer (s, store))) = None ->
  chains (fst (pass cfg f answer (s, store))) = chains s ++ [Done].
Proof.
  intros Hex. rewrite (pass_outcome_eq cfg f answer s store Hex).
  unfold pass_outcome.
  destruct (getLatestCheckpointsIPFSHash cfg answer) as [err|h]; [reflexivity|].
  destruct (JS.strict_neq h (lastIPFSHash s)); [|reflexivity].
  destruct (add_fault f h); [reflexivity|].
  destruct (isTesting cfg); [discriminate | reflexivity].
Qed.

(** C4 as stated fails: a second tick that fires while the pin-add of the
    first is still pending starts a second chain; two are in flight. *)
Lemma C4_counterexample_two_chains_in_flight :
  let s := run default_config initial
             [Tick; DnsReply 0 (dnslink "QmXYZ"); Tick] in
  chains s = [Pinning "QmXYZ"; Resolving]
  /\ in_flight s = 2
  /\ ~ in_flight s <= 1.
Proof.
  vm_compute. repeat split. lia.
Qed.

(** C4, amended: the tick handler has no guard.  Every tick starts a new
    chain with its DNS query at once, whatever stage the earlier chains are
    in, so each tick adds one to the chains in flight.  Only a pass that runs
    alone to its end, every call settled before the next tick, leaves the
    number of chains in flight as it found it. *)
Theorem C4_every_tick_starts_a_chain (cfg : Config) (s : State) :
  exited s = None ->
  (let s' := handle cfg s Tick in
   chains s' = chains s ++ [Resolving]
   /\ out s' = out s ++ [ResolveTxt (dnslink_name cfg)]
   /\ in_flight s' = S (in_flight s))
  /\ (forall f answer store,
        let w := pass cfg f answer (s, store) in
        exited (fst w) = None ->
        chains (fst w) = chains s ++ [Done] /\ in_flight (fst w) = in_flight s).
Proof.
  intros Hex. split.
  - unfold handle. rewrite Hex. state_simpl. split; [|split]; try reflexivity.
    unfold in_flight. cbn [chains]. rewrite filter_app, length_app. simpl. lia.
  - intros f answer store w Hw.
    pose proof (pass_settles cfg f answer s store Hex Hw) as Hch.
    fold w in Hch. split; [exact Hch|].
    unfold in_flight. rewrite Hch, filter_app, length_app. simpl. lia.
Qed.

Lemma C4_every_tick_witness :
  let s := run default_config initial [Tick; DnsReply 0 (dnslink "QmXYZ")] in
  exited s = None
  /\ in_flight s = 1
  /\ in_flight (handle default_config s Tick) = 2.
Proof.
  intros s. split; [reflexivity|]. split; [reflexivity|].
  exact (proj2 (proj2 (proj1 (C4_every_tick_starts_a_chain default_config s eq_refl)))).
Defined.

(** ** C7 *)

Lemma store_add_In h store pin :
  In pin (store_add h store) -> In pin store \/ hash pin = h.
Proof.
  unfold store_add.
  destruct (existsb (fun p => String.eqb (hash p) h && is_direct p) store).
  - auto.
  - intros H. apply in_app_or in H as [H | [<- | []]]; auto.
Qed.

(** The removal calls of a pass target Direct pins of the store whose
    identifier differs from [lastIPFSHash]. *)
Lemma pass_rm_calls cfg f answer s store :
  exited s = None ->
  let w := pass cfg f answer (s, store) in
  exists es,
    out (fst w) = out s ++ es
    /\ forall h, In (PinRm h) es ->
                 exists pin, In pin store /\ hash pin = h
                             /\ is_direct pin = true
                             /\ lastIPFSHash (fst w) <> Some h.
Proof.
  intros Hex w. subst w. rewrite (pass_outcome_eq cfg f answer s store Hex).
  unfold pass_outcome, after_pass.
  destruct (getLatestCheckpointsIPFSHash cfg answer) as [err|h0].
  { eexists. split; [reflexivity|]. intros h H. apply rm_calls_In in H.
    contradiction. }
  destruct (JS.strict_neq h0 (lastIPFSHash s)) eqn:Hneq.
  - destruct (add_fault f h0) as [err|].
    { eexists. split; [reflexivity|]. intros h H. apply rm_calls_In in H.
      contradiction. }
    destruct (isTesting cfg).
    { eexists. split; [reflexivity|]. intros h H. apply rm_calls_In in H.
      contradiction. }
    eexists. split; [reflexivity|]. cbn [fst lastIPFSHash]. intros h H.
    apply rm_calls_In in H.
    rewrite !rm_calls_app, rm_calls_prune_effects in H. simpl in H.
    destruct (ls_fault f); [contradiction|].
    apply cleanPins_forEach_spec in H as (pin & Hin & Hh & Hd & Hne).
    apply store_add_In in Hin as [Hin | Hin]; [|congruence].
    exists pin. repeat split; auto. congruence.
  - eexists. split; [reflexivity|]. cbn [fst lastIPFSHash]. intros h H.
    apply rm_calls_In in H.
    rewrite !rm_calls_app, rm_calls_prune_effects in H. simpl in H.
    destruct (ls_fault f); [contradiction|].
    apply cleanPins_forEach_spec in H as (pin & Hin & Hh & Hd & Hne).
    exists pin. repeat split; auto. congruence.
Qed.

(** C7: the removal set that [cleanPins] computes consists of the identifiers
    of the Direct pins that differ from [hashToSave], never of an Indirect
    pin; the removal calls of a pass target only Direct pins of the store whose
    identifier differs from [lastIPFSHash]; and on the pin set
    [{Direct: A, Indirect: Z}] with resolved identifier [A] a pass issues no
    removal call. *)
Theorem C7_pruning_never_targets_indirect_pins (cfg : Config) (f : Faults)
    (answer : DnsAnswer) (s : State) :
  exited s = None ->
  (forall hashToSave pinset h,
     In h (cleanPins_forEach hashToSave pinset)
     <-> exists pin, In pin pinset /\ hash pin = h
                     /\ is_direct pin = true /\ hashToSave <> Some (hash pin))
  /\ (forall store,
        let w := pass cfg f answer (s, store) in
        exists es,
          out (fst w) = out s ++ es
          /\ forall h, In (PinRm h) es ->
                       exists pin, In pin store /\ hash pin = h
                                   /\ is_direct pin = true
                                   /\ lastIPFSHash (fst w) <> Some h)
  /\ (forall A Z,
        getLatestCheckpointsIPFSHash cfg answer = inr A ->
        let w := pass cfg f answer (s, [direct A; indirect Z]) in
        exists es, out (fst w) = out s ++ es /\ forall h, ~ In (PinRm h) es).
Proof.
  intros Hex. split; [|split].
  - apply cleanPins_forEach_spec.
  - intros store. apply (pass_rm_calls cfg f answer s store Hex).
  - intros A Z Hget w. subst w.
    destruct (pass_rm_calls cfg f answer s [direct A; indirect Z] Hex)
      as (es & Hout & Hrm).
    cbv zeta in Hout, Hrm. exists es. split; [exact Hout|].
    intros h Hin. destruct (Hrm h Hin) as (pin & Hpin & Hh & Hd & Hne).
    assert (Hlast : lastIPFSHash
                      (fst (pass cfg f answer (s, [direct A; indirect Z])))
                    = Some A).
    { rewrite (pass_outcome_eq cfg f answer s _ Hex).
      unfold pass_outcome. rewrite Hget.
      destruct (JS.strict_neq A (lastIPFSHash s)) eqn:Hneq.
      - destruct (add_fault f A); [reflexivity|].
        destruct (isTesting cfg); reflexivity.
      - apply strict_neq_false_iff in Hneq. exact Hneq. }
    destruct Hpin as [<- | [<- | []]].
    + change (A = h) in Hh. subst h. exact (Hne Hlast).
    + discriminate Hd.
Qed.

Lemma C7_pruning_witness :
  let w := pass default_config no_faults (dnslink "QmA")
             (idle_with "QmA", [direct "QmA"; indirect "QmZ"]) in
  getLatestCheckpointsIPFSHash default_config (dnslink "QmA") = inr "QmA"
  /\ exists es, out (fst w) = out (idle_with "QmA") ++ es
                /\ forall h, ~ In (PinRm h) es.
Proof.
  intros w. split; [reflexivity|].
  exact (proj2 (proj2 (C7_pruning_never_targets_indirect_pins default_config
                         no_faults (dnslink "QmA") (idle_with "QmA") eq_refl))
           "QmA" "QmZ" eq_refl).
Defined.

(** ** C6 *)

Section Convergence.

Variable f : Faults.
Variables A B : string.
Variable store : PinSet.

Hypothesis ls_ok : ls_fault f = None.
Hypothesis rm_ok : rm_fault f B = None.
Hypothesis A_not_B : A <> B.
Hypothesis only_A_B :
  forall pin, In pin (direct_pins store) -> hash pin = A \/ hash pin = B.
Hypothesis has_B : exists pin, In pin (direct_pins store) /\ hash pin = B.

Lemma targets_are_B h : In h (cleanPins_forEach (Some A) store) <-> h = B.
Proof.
  rewrite cleanPins_forEach_spec. split.
  - intros (pin & Hin & Hh & Hd & Hne).
    destruct (only_A_B pin) as [HA | HB].
    + apply filter_In. auto.
    + congruence.
    + congruence.
  - intros ->. destruct has_B as (pin & Hin & Hh).
    apply filter_In in Hin as [Hin Hd]. exists pin. repeat split; auto.
    congruence.
Qed.

Lemma prune_calls_are_B h :
  In h (rm_calls (prune_effects f (Some A) store)) <-> h = B.
Proof.
  rewrite rm_calls_prune_effects, ls_ok. apply targets_are_B.
Qed.

Lemma survives_iff pin :
  is_direct pin = true -> In pin store ->
  (survives f (cleanPins_forEach (Some A) store) pin = true <-> hash pin = A).
Proof.
  intros Hd Hin. unfold survives. rewrite Hd, andb_true_l, negb_true_iff.
  destruct (only_A_B pin) as [HA | HB]; [apply filter_In; auto | |].
  - split; [auto|]. intros _.
    apply not_true_is_false. intros He.
    apply existsb_exists in He as (h & Hh & Heq).
    apply andb_true_iff in Heq as [Heq _]. apply String.eqb_eq in Heq.
    apply targets_are_B in Hh. congruence.
  - split; [|congruence]. intros He. exfalso.
    assert (Ht : existsb
                   (fun h => String.eqb (hash pin) h
                             && match rm_fault f h with
                                | Some _ => false
                                | None => true
                                end)
                   (cleanPins_forEach (Some A) store) = true).
    { apply existsb_exists. exists B. split.
      - apply targets_are_B. reflexivity.
      - rewrite HB, String.eqb_refl, rm_ok. reflexivity. }
    congruence.
Qed.

Lemma prune_keeps_A pin :
  In pin (direct_pins (prune_store f (Some A) store))
  <-> In pin (direct_pins store) /\ hash pin = A.
Proof.
  unfold prune_store. rewrite ls_ok, fold_rm_step_survives.
  unfold direct_pins. rewrite !filter_In. split.
  - intros [[Hin Hs] Hd]. split; [auto|]. apply (survives_iff pin Hd Hin). exact Hs.
  - intros [[Hin Hd] HA]. repeat split; auto. apply (survives_iff pin Hd Hin). exact HA.
Qed.

Lemma prune_keeps_indirect :
  indirect_pins (prune_store f (Some A) store) = indirect_pins store.
Proof.
  unfold prune_store. rewrite ls_ok. apply indirect_pins_after_removals.
Qed.

End Convergence.

(** C6: in normal operation, on a pin set whose Direct pins are those of [A]
    and [B] (two different identifiers) and with [A] resolved, a pass whose
    store calls succeed issues removal calls for [B] and for nothing else;
    afterwards the Direct pins are exactly those of [A], and the Indirect pins
    are as before. *)
Theorem C6_one_pass_converges (cfg : Config) (f : Faults) (answer : DnsAnswer)
    (s : State) (store : PinSet) (A B : string) :
  isTesting cfg = false ->
  exited s = None ->
  getLatestCheckpointsIPFSHash cfg answer = inr A ->
  add_fault f A = None -> ls_fault f = None -> rm_fault f B = None ->
  A <> B ->
  (forall pin, In pin (direct_pins store) -> hash pin = A \/ hash pin = B) ->
  (exists pin, In pin (direct_pins store) /\ hash pin = A) ->
  (exists pin, In pin (direct_pins store) /\ hash pin = B) ->
  let w := pass cfg f answer (s, store) in
  (exists es, out (fst w) = out s ++ es /\ forall h, In (PinRm h) es <-> h = B)
  /\ (forall pin, In pin (direct_pins (snd w))
                  <-> In pin (direct_pins store) /\ hash pin = A)
  /\ (exists pin, In pin (direct_pins (snd w)) /\ hash pin = A)
  /\ indirect_pins (snd w) = indirect_pins store
  /\ lastIPFSHash (fst w) = Some A.
Proof.
  intros Hnt Hex Hget Hadd Hls Hrm HAB Honly [pA [HinA HhA]] HasB w.
  assert (Hw : exists pre,
             rm_calls pre = []
             /\ w = (after_pass s (Some A) Done []
                       (pre ++ prune_effects f (Some A) store) None,
                     prune_store f (Some A) store)).
  { subst w. rewrite (pass_outcome_eq cfg f answer s store Hex).
    unfold pass_outcome. rewrite Hget, Hnt.
    destruct (JS.strict_neq A (lastIPFSHash s)) eqn:Hneq.
    - rewrite Hadd, (store_add_present A store pA HinA HhA).
      eexists. split; [|rewrite app_assoc; reflexivity]. reflexivity.
    - apply strict_neq_false_iff in Hneq. rewrite Hneq.
      eexists. split; [|reflexivity]. reflexivity. }
  destruct Hw as (pre & Hpre & ->). cbn [fst snd after_pass out lastIPFSHash].
  split; [|split; [|split; [|split]]].
  - eexists. split; [reflexivity|]. intros h.
    rewrite rm_calls_In, rm_calls_app, Hpre. simpl.
    apply (prune_calls_are_B f A B store Hls HAB Honly HasB).
  - intros pin. apply (prune_keeps_A f A B store Hls Hrm HAB Honly HasB).
  - exists pA. split; [|exact HhA].
    apply (prune_keeps_A f A B store Hls Hrm HAB Honly HasB). auto.
  - apply (prune_keeps_indirect f A store Hls).
  - reflexivity.
Qed.

Lemma C6_one_pass_witness :
  let store := [recursive "QmA"; recursive "QmB"; indirect "QmZ"] in
  let w := pass default_config no_faults (dnslink "QmA") (initial, store) in
  "QmA" <> "QmB"
  /\ direct_pins store = [recursive "QmA"; recursive "QmB"]
  /\ (exists es, out (fst w) = out initial ++ es
                 /\ forall h, In (PinRm h) es <-> h = "QmB")
  /\ indirect_pins (snd w) = indirect_pins store.
Proof.
  intros store w.
  assert (HAB : "QmA" <> "QmB") by discriminate.
  split; [exact HAB|]. split; [reflexivity|].
  assert (Honly : forall pin, In pin (direct_pins store)
                              -> hash pin = "QmA" \/ hash pin = "QmB").
  { simpl. intros pin [<- | [<- | []]]; auto. }
  pose proof (C6_one_pass_converges default_config no_faults (dnslink "QmA")
                initial store "QmA" "QmB"
                eq_refl eq_refl eq_refl eq_refl eq_refl eq_refl HAB Honly
                (ex_intro _ (recursive "QmA") (conj (or_introl eq_refl) eq_refl))
                (ex_intro _ (recursive "QmB")
                   (conj (or_intror (or_introl eq_refl)) eq_refl))) as H.
  split; [exact (proj1 H) | exact (proj1 (proj2 (proj2 (proj2 H))))].
Defined.

(** ** C8 *)

Lemma no_PinAdd_in_prune_effects f hashToSave store :
  existsb is_PinAdd (prune_effects f hashToSave store) = false.
Proof.
  unfold prune_effects, prune_report. destruct (ls_fault f); [reflexivity|].
  rewrite existsb_app, no_PinAdd_in_PinRm.
  destruct (first_fault f _); [reflexivity|]. apply no_PinAdd_in_unpinned.
Qed.

(** After a batch of removals that all succeeded, nothing is left to
    remove. *)
Lemma nothing_left_to_remove hashToSave store :
  cleanPins_forEach hashToSave
    (fold_left (rm_step no_faults) (cleanPins_forEach hashToSave store) store)
  = [].
Proof.
  destruct (cleanPins_forEach hashToSave (fold_left _ _ store)) as [|h t] eqn:E;
    [reflexivity|].
  exfalso.
  assert (Hin : In h (cleanPins_forEach hashToSave
                        (fold_left (rm_step no_faults)
                           (cleanPins_forEach hashToSave store) store)))
    by (rewrite E; left; reflexivity).
  apply cleanPins_forEach_spec in Hin as (pin & Hin & Hh & Hd & Hne).
  rewrite fold_rm_step_survives in Hin. apply filter_In in Hin as [Hin Hs].
  unfold survives in Hs. rewrite Hd, andb_true_l, negb_true_iff in Hs.
  assert (Ht : existsb
                 (fun h0 => String.eqb (hash pin) h0
                            && match rm_fault no_faults h0 with
                               | Some _ => false
                               | None => true
                               end)
                 (cleanPins_forEach hashToSave store) = true).
  { apply existsb_exists. exists (hash pin). split.
    - apply cleanPins_forEach_spec. exists pin. auto.
    - rewrite String.eqb_refl. reflexivity. }
  congruence.
Qed.

Lemma prune_store_again f hashToSave store :
  prune_store f hashToSave (prune_store no_faults hashToSave store)
  = prune_store no_faults hashToSave store.
Proof.
  unfold prune_store. cbn [ls_fault no_faults].
  destruct (ls_fault f); [reflexivity|].
  rewrite nothing_left_to_remove. reflexivity.
Qed.

(** A pass whose resolution yields the current [lastIPFSHash]. *)
Lemma pass_unchanged cfg f answer s store h :
  exited s = None -> lastIPFSHash s = Some h ->
  getLatestCheckpointsIPFSHash cfg answer = inr h ->
  pass cfg f answer (s, store)
  = (after_pass s (Some h) Done []
       ([ResolveTxt (dnslink_name cfg); PinLs] ++ prune_effects f (Some h) store)
       None,
     prune_store f (Some h) store).
Proof.
  intros Hex Hlast Hget. rewrite (pass_outcome_eq cfg f answer s store Hex).
  unfold pass_outcome. rewrite Hget.
  assert (Hneq : JS.strict_neq h (lastIPFSHash s) = false)
    by (apply strict_neq_false_iff; exact Hlast).
  rewrite Hneq, Hlast. reflexivity.
Qed.

(** C8: when the resolved identifier equals [lastIPFSHash], the pass issues
    no pin-add and goes straight to the listing call of the pruning step; and
    after a pass whose store calls all succeeded, a second pass that resolves
    the same identifier leaves the pin set, hence its Direct subset, as the
    first pass left it. *)
Theorem C8_reconciliation_is_idempotent (cfg : Config) (h : string) :
  (forall f answer s store,
     exited s = None ->
     lastIPFSHash s = Some h ->
     getLatestCheckpointsIPFSHash cfg answer = inr h ->
     let w := pass cfg f answer (s, store) in
     exists es,
       out (fst w) = out s ++ ResolveTxt (dnslink_name cfg) :: PinLs :: es
       /\ forall x, ~ In (PinAdd x) es)
  /\ (forall f answer1 answer2 s store,
        getLatestCheckpointsIPFSHash cfg answer1 = inr h ->
        getLatestCheckpointsIPFSHash cfg answer2 = inr h ->
        let w1 := pass cfg no_faults answer1 (s, store) in
        let w2 := pass cfg f answer2 w1 in
        snd w2 = snd w1 /\ direct_pins (snd w2) = direct_pins (snd w1)).
Proof.
  split.
  - intros f answer s store Hex Hlast Hget w. subst w.
    rewrite (pass_unchanged cfg f answer s store h Hex Hlast Hget).
    exists (prune_effects f (Some h) store). split; [reflexivity|].
    apply existsb_is_PinAdd_false. apply no_PinAdd_in_prune_effects.
  - intros f answer1 answer2 s store Hget1 Hget2 w1 w2.
    assert (Hsame : snd w2 = snd w1); [|split; [exact Hsame | rewrite Hsame; reflexivity]].
    subst w2 w1.
    destruct (exited s) as [c|] eqn:Hex.
    { rewrite (pass_after_exit cfg no_faults answer1 s store c Hex).
      rewrite (pass_after_exit cfg f answer2 s store c Hex). reflexivity. }
    rewrite (pass_outcome_eq cfg no_faults answer1 s store Hex).
    unfold pass_outcome. rewrite Hget1.
    destruct (JS.strict_neq h (lastIPFSHash s)) eqn:Hneq.
    + cbn [add_fault no_faults]. destruct (isTesting cfg).
      * rewrite pass_after_exit with (c := 0%Z) by reflexivity. reflexivity.
      * rewrite pass_unchanged with (h := h);
          [ | reflexivity | reflexivity | exact Hget2 ].
        cbn [snd]. apply prune_store_again.
    + apply strict_neq_false_iff in Hneq.
      rewrite pass_unchanged with (h := h);
        [ | reflexivity | exact Hneq | exact Hget2 ].
      cbn [snd]. rewrite Hneq. apply prune_store_again.
Qed.

Lemma C8_reconciliation_witness :
  let store := [recursive "QmOld"; indirect "QmZ"] in
  let w1 := pass default_config no_faults (dnslink "QmNew") (initial, store) in
  let w2 := pass default_config no_faults (dnslink "QmNew") w1 in
  getLatestCheckpointsIPFSHash default_config (dnslink "QmNew") = inr "QmNew"
  /\ direct_pins (snd w1) = [recursive "QmNew"]
  /\ direct_pins (snd w2) = direct_pins (snd w1).
Proof.
  intros store w1 w2. split; [reflexivity|]. split; [reflexivity|].
  exact (proj2 (proj2 (C8_reconciliation_is_idempotent default_config "QmNew")
                  no_faults (dnslink "QmNew") (dnslink "QmNew") initial store
                  eq_refl eq_refl)).
Defined.

(** * Further properties of the code *)

(** ** The resolver on records of the expected shape *)

Lemma has_slash_app_slash pre h : has_slash (pre ++ String "/" h) = true.
Proof.
  induction pre as [|c pre IH]; simpl.
  - reflexivity.
  - rewrite IH. apply orb_true_r.
Qed.

Lemma after_final_slash_app pre h :
  no_slash h -> after_final_slash (pre ++ String "/" h) = h.
Proof.
  intros Hh. induction pre as [|c pre IH]; simpl.
  - apply has_slash_false_no_slash in Hh. rewrite Hh. reflexivity.
  - rewrite has_slash_app_slash. exact IH.
Qed.

(** X1: round trip: whatever precedes the last ['/'] of the first record's first
    string, and whatever other strings and records DNS returns, the resolver
    yields the slash-free identifier that follows it. *)
Theorem resolver_round_trip (cfg : Config) (pre h : string)
    (strs : list string) (rest : list (list string)) :
  no_slash h ->
  getLatestCheckpointsIPFSHash cfg
    (DnsRecords (((pre ++ "/" ++ h)%string :: strs) :: rest)) = inr h.
Proof.
  intros Hh. cbn [getLatestCheckpointsIPFSHash].
  rewrite pop_split_after_final_slash.
  change (pre ++ "/" ++ h)%string with (pre ++ String "/" h)%string.
  rewrite (after_final_slash_app pre h Hh). reflexivity.
Qed.

Lemma resolver_round_trip_witness :
  no_slash "QmXYZ"
  /\ getLatestCheckpointsIPFSHash default_config
       (DnsRecords [["dnslink=/ipfs/QmXYZ"; "ignored"]; ["v=spf1 -all"]])
     = inr "QmXYZ".
Proof.
  assert (H : no_slash "QmXYZ") by (simpl; repeat split; discriminate).
  split; [exact H|].
  exact (resolver_round_trip default_config "dnslink=/ipfs" "QmXYZ"
           ["ignored"] [["v=spf1 -all"]] H).
Defined.

(** ** What one event does to the state *)

Lemma update_length {A : Type} (l : list A) i x : length (update l i x) = length l.
Proof.
  revert i. induction l as [|y l IH]; intros [|i]; simpl; auto.
Qed.

Lemma pin_adds_app es es' : pin_adds (es ++ es') = pin_adds es ++ pin_adds es'.
Proof. unfold pin_adds. apply flat_map_app. Qed.

Lemma pin_adds_PinRm l : pin_adds (map PinRm l) = [].
Proof. induction l; simpl; auto. Qed.

Lemma pin_adds_unpinned l : pin_adds (map unpinned_line l) = [].
Proof. induction l; simpl; auto. Qed.

Lemma resolve_count_app es es' :
  resolve_count (es ++ es') = resolve_count es + resolve_count es'.
Proof. unfold resolve_count. rewrite filter_app, length_app. reflexivity. Qed.

Lemma resolve_count_PinRm l : resolve_count (map PinRm l) = 0.
Proof. induction l; simpl; auto. Qed.

Lemma resolve_count_unpinned l : resolve_count (map unpinned_line l) = 0.
Proof. induction l; simpl; auto. Qed.

Lemma exit_count_app es es' : exit_count (es ++ es') = exit_count es + exit_count es'.
Proof. unfold exit_count. rewrite filter_app, length_app. reflexivity. Qed.

Lemma exit_count_PinRm l : exit_count (map PinRm l) = 0.
Proof. induction l; simpl; auto. Qed.

Lemma exit_count_unpinned l : exit_count (map unpinned_line l) = 0.
Proof. induction l; simpl; auto. Qed.

Ltac break_match :=
  match goal with
  | |- context [match ?x with _ => _ end] => destruct x eqn:?
  end.

Ltac handle_leaves :=
  unfold handle, watchdog, tick_resolved, tick_results, cleanPins_listed,
    unpin_settled;
  repeat (cbn [Nat.eqb andb]; break_match);
  state_simpl.

Ltac trace_simpl :=
  rewrite ?pin_adds_app, ?pin_adds_PinRm, ?pin_adds_unpinned,
    ?resolve_count_app, ?resolve_count_PinRm, ?resolve_count_unpinned,
    ?exit_count_app, ?exit_count_PinRm, ?exit_count_unpinned,
    ?update_length, ?length_app;
  cbn [pin_adds resolve_count exit_count flat_map filter length app Nat.add].

Ltac new_output :=
  first
    [ exists []; split; [symmetry; apply app_nil_r |]
    | eexists; split; [rewrite <- ?app_assoc; reflexivity |] ].

(** What any one event adds to the trace, and how the variables move with
    it. *)
Lemma step_summary cfg s ev :
  let s' := handle cfg s ev in
  exists es,
    out s' = out s ++ es
    /\ ((lastIPFSHash s' = lastIPFSHash s /\ pin_adds es = [])
        \/ exists h, JS.strict_neq h (lastIPFSHash s) = true
                     /\ lastIPFSHash s' = Some h /\ pin_adds es = [h])
    /\ pingTimers s' = pingTimers s ++ (if isTesting cfg then pin_adds es else [])
    /\ length (chains s') = length (chains s) + resolve_count es
    /\ resolve_count es
       = match exited s, ev with
         | None, Tick => 1
         | _, _ => 0
         end
    /\ ((exited s' = exited s /\ exit_count es = 0)
        \/ (exited s = None /\ isTesting cfg = true /\ exited s' = Some 0%Z
            /\ last_opt es = Some (Exit 0) /\ exit_count es = 1)).
Proof.
  cbv zeta. handle_leaves; new_output; trace_simpl;
    (split;
     [ first [ left; split; reflexivity
             | right; eexists; split; [eassumption | split; reflexivity] ]
     | split;
       [ rewrite ?app_nil_r; try reflexivity
       | split;
         [ try reflexivity; try lia
         | split;
           [ reflexivity
           | first [ left; split; [assumption || reflexivity | reflexivity]
                   | right; repeat split; assumption || reflexivity ] ] ] ] ]).
Qed.

(** ** Invariants of every run *)

Lemma last_opt_snoc {A : Type} (l : list A) x : last_opt (l ++ [x]) = Some x.
Proof.
  induction l as [|y l IH]; simpl.
  - reflexivity.
  - destruct (l ++ [x]) eqn:E; [destruct l; discriminate | exact IH].
Qed.

Lemma last_opt_app {A : Type} (l es : list A) :
  es <> [] -> last_opt (l ++ es) = last_opt es.
Proof.
  intros Hne. induction l as [|y l IH]; simpl.
  - reflexivity.
  - destruct (l ++ es) eqn:E; [|exact IH].
    apply app_eq_nil in E as [_ E]. congruence.
Qed.

Lemma distinct_neighbours_snoc l h :
  distinct_neighbours l -> last_opt l <> Some h -> distinct_neighbours (l ++ [h]).
Proof.
  induction l as [|x l IH]; intros Hd Hl.
  - exact I.
  - destruct l as [|y l].
    + simpl in *. split; [congruence | exact I].
    + destruct Hd as [Hxy Hd]. split; [exact Hxy|].
      apply IH; assumption.
Qed.

Lemma run_after_exit cfg s evs c : exited s = Some c -> run cfg s evs = s.
Proof.
  intros Hex. induction evs as [|ev evs IH]; [reflexivity|].
  rewrite run_cons, (handle_after_exit cfg s ev c Hex). exact IH.
Qed.

Lemma run_snoc cfg s evs ev :
  run cfg s (evs ++ [ev]) = handle cfg (run cfg s evs) ev.
Proof. unfold run. rewrite fold_left_app. reflexivity. Qed.

(** X2: [lastIPFSHash] is the identifier of the latest pin-add call, and
    [undefined] exactly while no pin-add has been issued; two pin-add calls in
    a row are never for the same identifier.  This holds after any sequence of
    events, in either mode. *)
Theorem lastIPFSHash_is_latest_pin_add (cfg : Config) (evs : list Event) :
  let s := run cfg initial evs in
  last_opt (pin_adds (out s)) = lastIPFSHash s
  /\ distinct_neighbours (pin_adds (out s)).
Proof.
  induction evs as [|ev evs IH] using rev_ind.
  - simpl. split; [reflexivity | exact I].
  - cbv zeta in *. rewrite run_snoc.
    destruct IH as [IHlast IHd].
    destruct (step_summary cfg (run cfg initial evs) ev)
      as (es & Hout & Hadd & _).
    rewrite Hout, pin_adds_app.
    destruct Hadd as [[Hlast ->] | (h & Hneq & Hlast & ->)].
    + rewrite app_nil_r, Hlast. auto.
    + rewrite last_opt_snoc, Hlast. split; [reflexivity|].
      apply distinct_neighbours_snoc; [exact IHd|].
      rewrite IHlast. intros Heq. apply strict_neq_false_iff in Heq. congruence.
Qed.

(** X3: in a test run every pin-add call creates one ping timer for the same
    identifier and none is ever removed; outside a test run none exists. *)
Theorem ping_timers_follow_pin_adds (cfg : Config) (evs : list Event) :
  let s := run cfg initial evs in
  pingTimers s = if isTesting cfg then pin_adds (out s) else [].
Proof.
  induction evs as [|ev evs IH] using rev_ind.
  - simpl. destruct (isTesting cfg); reflexivity.
  - cbv zeta in *. rewrite run_snoc.
    destruct (step_summary cfg (run cfg initial evs) ev)
      as (es & Hout & _ & Hping & _).
    rewrite Hping, Hout, IH, pin_adds_app.
    destruct (isTesting cfg); reflexivity.
Qed.

Lemma exit_invariant_step cfg s ev :
  match exited s with
  | None => exit_count (out s) = 0
  | Some c => c = 0%Z /\ isTesting cfg = true
              /\ last_opt (out s) = Some (Exit 0) /\ exit_count (out s) = 1
  end ->
  match exited (handle cfg s ev) with
  | None => exit_count (out (handle cfg s ev)) = 0
  | Some c => c = 0%Z /\ isTesting cfg = true
              /\ last_opt (out (handle cfg s ev)) = Some (Exit 0)
              /\ exit_count (out (handle cfg s ev)) = 1
  end.
Proof.
  destruct (exited s) as [c|] eqn:Hex.
  - rewrite (handle_after_exit cfg s ev c Hex), Hex. auto.
  - intros H0.
    destruct (step_summary cfg s ev) as (es & Hout & _ & _ & _ & _ & Hexit).
    destruct Hexit as [[He Hc] | (_ & Ht & He & Hl & Hc)].
    + rewrite He, Hex, Hout, exit_count_app. lia.
    + rewrite He, Hout, exit_count_app, H0, Hc.
      rewrite last_opt_app by (intros ->; discriminate). auto.
Qed.

(** X4: the process exits only in a test run, only with status 0, and
    [process.exit] is then the last thing it did; outside a test run no
    sequence of events, whatever fails, makes it exit. *)
Theorem exit_only_in_test_run_with_status_0 (cfg : Config) (evs : list Event) :
  let s := run cfg initial evs in
  (isTesting cfg = false -> exited s = None)
  /\ (exited s = None -> exit_count (out s) = 0)
  /\ (forall c, exited s = Some c ->
        c = 0%Z /\ last_opt (out s) = Some (Exit 0) /\ exit_count (out s) = 1).
Proof.
  cbv zeta.
  assert (Inv : match exited (run cfg initial evs) with
                | None => exit_count (out (run cfg initial evs)) = 0
                | Some c => c = 0%Z /\ isTesting cfg = true
                            /\ last_opt (out (run cfg initial evs)) = Some (Exit 0)
                            /\ exit_count (out (run cfg initial evs)) = 1
                end).
  { induction evs as [|ev evs IH] using rev_ind.
    - reflexivity.
    - rewrite run_snoc. apply exit_invariant_step. exact IH. }
  destruct (exited (run cfg initial evs)) as [c|].
  - destruct Inv as (Hc & Ht & Hl & Hn). split; [|split].
    + congruence.
    + discriminate.
    + intros c' [= <-]. auto.
  - split; [|split]; auto. discriminate.
Qed.

Lemma exit_only_in_test_run_witness :
  let s := run test_config initial
             [Tick; DnsReply 0 (dnslink "QmXYZ"); AddReply 0 None; Tick] in
  exited s = Some 0%Z /\ last_opt (out s) = Some (Exit 0).
Proof.
  intros s. split; [reflexivity|].
  exact (proj1 (proj2 (proj2 (proj2 (exit_only_in_test_run_with_status_0
                                       test_config
                                       [Tick; DnsReply 0 (dnslink "QmXYZ");
                                        AddReply 0 None; Tick]))
                         0%Z eq_refl))).
Defined.

Lemma tick_count_app evs evs' :
  tick_count (evs ++ evs') = tick_count evs + tick_count evs'.
Proof. unfold tick_count. rewrite filter_app, length_app. reflexivity. Qed.

Lemma exited_stays cfg s ev c : exited s = Some c -> exited (handle cfg s ev) = Some c.
Proof. intros H. rewrite (handle_after_exit cfg s ev c H). exact H. Qed.

Lemma chains_and_queries cfg evs :
  length (chains (run cfg initial evs)) = resolve_count (out (run cfg initial evs))
  /\ resolve_count (out (run cfg initial evs)) <= tick_count evs
  /\ (exited (run cfg initial evs) = None ->
      resolve_count (out (run cfg initial evs)) = tick_count evs).
Proof.
  induction evs as [|ev evs IH] using rev_ind.
  - simpl. auto.
  - rewrite run_snoc, tick_count_app.
    destruct IH as (IHlen & IHle & IHeq).
    destruct (step_summary cfg (run cfg initial evs) ev)
      as (es & Hout & _ & _ & Hlen & Hres & _).
    rewrite Hlen, Hout, resolve_count_app, IHlen. split; [reflexivity|].
    destruct (exited (run cfg initial evs)) as [c|] eqn:Hex.
    + rewrite Hres. split; [lia|].
      rewrite (exited_stays cfg _ ev c Hex). discriminate.
    + specialize (IHeq eq_refl).
      destruct ev; rewrite Hres; unfold tick_count in *; simpl;
        split; intros; lia.
Qed.

(** X5: every tick that the running process receives issues exactly one DNS
    query and starts exactly one chain, and nothing else ever queries DNS: the
    resolver is not retried within a tick. *)
Theorem one_dns_query_per_tick (cfg : Config) (evs : list Event) :
  let s := run cfg initial evs in
  length (chains s) = resolve_count (out s)
  /\ resolve_count (out s) <= tick_count evs
  /\ (exited s = None -> resolve_count (out s) = tick_count evs).
Proof.
  cbv zeta. apply chains_and_queries.
Qed.

Lemma one_dns_query_per_tick_witness :
  let evs := [Tick; DnsReply 0 (DnsErr "Error: queryTxt ETIMEOUT");
              Tick; DnsReply 1 (dnslink "QmXYZ"); Tick] in
  let s := run default_config initial evs in
  exited s = None /\ resolve_count (out s) = 3.
Proof.
  intros evs s. split; [reflexivity|].
  exact (proj2 (proj2 (one_dns_query_per_tick default_config evs)) eq_refl).
Defined.

Lemma Forall_update {A : Type} (P : A -> Prop) (l : list A) i x :
  Forall P l -> P x -> Forall P (update l i x).
Proof.
  intros Hl Hx. revert i. induction Hl as [|y l Hy Hl IH]; intros [|i]; simpl;
    constructor; auto.
Qed.

Lemma stage_ok_at last s id st :
  Forall (stage_ok last) (chains s) -> stage_of id s = Some st -> stage_ok last st.
Proof.
  intros HF Hst. apply nth_error_In in Hst.
  rewrite Forall_forall in HF. auto.
Qed.

Lemma stage_ok_set last h st : stage_ok last st -> stage_ok (Some h) st.
Proof.
  destruct st; simpl; auto. intros _. discriminate.
Qed.

Ltac solve_stage_ok :=
  first
    [ assumption
    | apply Forall_app; split; [assumption | repeat constructor]
    | apply Forall_update;
      [ assumption
      | cbn [stage_ok];
        first
          [ exact I
          | discriminate
          | match goal with
            | Hn : JS.strict_neq ?h ?L = false |- ?L <> None =>
                apply strict_neq_false_iff in Hn; rewrite Hn; discriminate
            | Hs : stage_of ?id ?s = Some (Pinning ?x),
              HF : Forall (stage_ok ?L) (chains ?s) |- ?L <> None =>
                exact (stage_ok_at L s id (Pinning x) HF Hs)
            end ] ] ].

Lemma stage_ok_step cfg s ev :
  Forall (stage_ok (lastIPFSHash s)) (chains s) ->
  Forall (stage_ok (lastIPFSHash (handle cfg s ev))) (chains (handle cfg s ev)).
Proof.
  intros HF.
  assert (HF' : forall h, Forall (stage_ok (Some h)) (chains s)).
  { intros h. eapply Forall_impl; [|exact HF]. intros st. apply stage_ok_set. }
  handle_leaves; try solve_stage_ok;
    match goal with
    | |- Forall (stage_ok (Some ?h)) _ => specialize (HF' h); solve_stage_ok
    end.
Qed.

(** X6: [cleanPins] is never called with [undefined]: in every run, a chain that
    waits for its listing holds the identifier to save, and a chain waits for a
    pin-add only while [lastIPFSHash] is set. *)
Theorem cleanPins_always_has_a_hash_to_save (cfg : Config) (evs : list Event)
    (id : nat) :
  let s := run cfg initial evs in
  (forall hashToSave, stage_of id s = Some (Listing hashToSave) ->
                      exists h, hashToSave = Some h)
  /\ (forall newHash, stage_of id s = Some (Pinning newHash) ->
                      exists h, lastIPFSHash s = Some h).
Proof.
  cbv zeta.
  assert (Inv : Forall (stage_ok (lastIPFSHash (run cfg initial evs)))
                  (chains (run cfg initial evs))).
  { induction evs as [|ev evs IH] using rev_ind.
    - constructor.
    - rewrite run_snoc. apply stage_ok_step. exact IH. }
  split.
  - intros hts Hst. pose proof (stage_ok_at _ _ _ _ Inv Hst) as Hok.
    simpl in Hok. destruct hts as [h|]; [eauto | congruence].
  - intros newHash Hst. pose proof (stage_ok_at _ _ _ _ Inv Hst) as Hok.
    simpl in Hok. destruct (lastIPFSHash (run cfg initial evs)) as [h|];
      [eauto | congruence].
Qed.

Lemma cleanPins_always_has_a_hash_witness :
  let s := run default_config initial
             [Tick; DnsReply 0 (dnslink "QmXYZ"); AddReply 0 None] in
  stage_of 0 s = Some (Listing (Some "QmXYZ"))
  /\ exists h, Some "QmXYZ" = Some h.
Proof.
  intros s. split; [reflexivity|].
  exact (proj1 (cleanPins_always_has_a_hash_to_save default_config
                  [Tick; DnsReply 0 (dnslink "QmXYZ"); AddReply 0 None] 0)
           (Some "QmXYZ") eq_refl).
Defined.

Lemma count_update (P : Stage -> bool) (l : list Stage) id st0 st :
  nth_error l id = Some st0 ->
  length (filter P (update l id st)) + (if P st0 then 1 else 0)
  = length (filter P l) + (if P st then 1 else 0).
Proof.
  revert id. induction l as [|y l IH]; intros [|id]; simpl; try discriminate.
  - intros [= ->]. destruct (P st0), (P st); simpl; lia.
  - intros Hn. specialize (IH id Hn). destruct (P y); simpl; lia.
Qed.

Lemma ls_count_app es es' : ls_count (es ++ es') = ls_count es + ls_count es'.
Proof. unfold ls_count. rewrite filter_app, length_app. reflexivity. Qed.

Lemma ls_count_PinRm l : ls_count (map PinRm l) = 0.
Proof. induction l; simpl; auto. Qed.

Lemma ls_count_unpinned l : ls_count (map unpinned_line l) = 0.
Proof. induction l; simpl; auto. Qed.

Ltac count_leaf :=
  rewrite ?pin_adds_app, ?pin_adds_PinRm, ?pin_adds_unpinned,
    ?ls_count_app, ?ls_count_PinRm, ?ls_count_unpinned;
  unfold count_stages, ls_count in *;
  rewrite ?filter_app, ?length_app, ?update_length;
  try match goal with
      | Hs : stage_of ?id ?s = Some ?st0
        |- context [update (chains ?s) ?id ?st] =>
          pose proof (count_update is_resolving (chains s) id st0 st Hs);
          pose proof (count_update before_listing (chains s) id st0 st Hs)
      end;
  simpl in *; lia.

Lemma calls_per_chain_step cfg s ev :
  length (pin_adds (out s)) + count_stages is_resolving (chains s)
    <= length (chains s)
  /\ ls_count (out s) + count_stages before_listing (chains s)
     <= length (chains s) ->
  let s' := handle cfg s ev in
  length (pin_adds (out s')) + count_stages is_resolving (chains s')
    <= length (chains s')
  /\ ls_count (out s') + count_stages before_listing (chains s')
     <= length (chains s').
Proof.
  intros [HA HB]. cbv zeta. handle_leaves; split; count_leaf.
Qed.

(** X7: a chain calls [node.pin.add] at most once and [node.pin.ls] at most
    once: after any sequence of events neither call has been issued more often
    than ticks were received. *)
Theorem at_most_one_add_and_one_listing_per_tick (cfg : Config)
    (evs : list Event) :
  let s := run cfg initial evs in
  length (pin_adds (out s)) <= tick_count evs
  /\ ls_count (out s) <= tick_count evs.
Proof.
  cbv zeta.
  assert (Inv : length (pin_adds (out (run cfg initial evs)))
                + count_stages is_resolving (chains (run cfg initial evs))
                <= length (chains (run cfg initial evs))
                /\ ls_count (out (run cfg initial evs))
                   + count_stages before_listing (chains (run cfg initial evs))
                   <= length (chains (run cfg initial evs))).
  { induction evs as [|ev evs IH] using rev_ind.
    - unfold count_stages, ls_count. simpl. lia.
    - rewrite run_snoc. apply calls_per_chain_step. exact IH. }
  destruct (chains_and_queries cfg evs) as (Hlen & Hle & _).
  destruct Inv as [HA HB]. lia.
Qed.

(** ** Passes run one after the other *)

Lemma in_flight_after_pass s last pings es ex :
  in_flight (after_pass s last Done pings es ex) = in_flight s.
Proof.
  unfold in_flight, after_pass. cbn [chains].
  rewrite filter_app, length_app. simpl. lia.
Qed.

Lemma pass_dns_failure cfg f answer s store :
  exited s = None -> dns_failure answer ->
  pass cfg f answer (s, store)
  = (after_pass s (lastIPFSHash s) Done []
       [ResolveTxt (dnslink_name cfg); Log WARN (resolver_error cfg answer)] None,
     store).
Proof.
  intros Hex Hfail. apply (resolver_fails_iff cfg) in Hfail as [e He].
  rewrite (pass_outcome_eq cfg f answer s store Hex).
  unfold pass_outcome, resolver_error. rewrite He. reflexivity.
Qed.

(** X8: failure isolation: passes whose DNS query fails, however many in a row
    and whatever the store would have answered, leave [lastIPFSHash] and the
    pin set as they were, call nothing on the node, and only log one warning
    each. *)
Theorem failed_resolutions_change_nothing (cfg : Config) (f : Faults)
    (answers : list DnsAnswer) (s : State) (store : PinSet) :
  exited s = None ->
  Forall dns_failure answers ->
  let w := passes cfg f answers (s, store) in
  snd w = store
  /\ lastIPFSHash (fst w) = lastIPFSHash s
  /\ exited (fst w) = None
  /\ in_flight (fst w) = in_flight s
  /\ out (fst w)
     = out s ++ flat_map (fun a => [ResolveTxt (dnslink_name cfg);
                                    Log WARN (resolver_error cfg a)]) answers.
Proof.
  intros Hex Hall. cbv zeta. revert s Hex.
  induction Hall as [|a answers Ha Hall IH]; intros s Hex.
  - simpl. rewrite app_nil_r. auto.
  - unfold passes in *. cbn [fold_left].
    rewrite (pass_dns_failure cfg f a s store Hex Ha).
    destruct (IH (after_pass s (lastIPFSHash s) Done []
                    [ResolveTxt (dnslink_name cfg);
                     Log WARN (resolver_error cfg a)] None) eq_refl)
      as (Hst & Hlast & Hexit & Hfl & Hout).
    rewrite Hst, Hlast, Hexit, Hfl, Hout, in_flight_after_pass.
    repeat split; try reflexivity.
    cbn [after_pass out flat_map]. rewrite <- app_assoc. reflexivity.
Qed.

Lemma failed_resolutions_witness :
  let answers := [DnsErr "Error: queryTxt ETIMEOUT"; DnsRecords []; DnsRecords [[]]] in
  let w := passes default_config no_faults answers
             (idle_with "QmA", [recursive "QmA"; recursive "QmOld"]) in
  snd w = [recursive "QmA"; recursive "QmOld"]
  /\ lastIPFSHash (fst w) = Some "QmA".
Proof.
  intros answers w.
  assert (Hall : Forall dns_failure answers).
  { apply Forall_cons; [left; eexists; reflexivity|].
    apply Forall_cons; [right; left; reflexivity|].
    apply Forall_cons; [right; right; eexists; reflexivity|].
    apply Forall_nil. }
  pose proof (failed_resolutions_change_nothing default_config no_faults answers
                (idle_with "QmA") [recursive "QmA"; recursive "QmOld"]
                eq_refl Hall) as H.
  split; [exact (proj1 H) | exact (proj1 (proj2 H))].
Defined.

(** ** The target state *)

(** [cleanPins] calls [unpin] once per Direct pin other than [hashToSave], in
    listing order. *)
Lemma cleanPins_forEach_filter hashToSave pinset :
  cleanPins_forEach hashToSave pinset
  = map hash (filter (fun pin => JS.strict_neq (hash pin) hashToSave
                                 && is_direct pin) pinset).
Proof.
  induction pinset as [|p pinset IH]; simpl.
  - reflexivity.
  - unfold JS.strict_eq, is_direct, is_indirect.
    destruct (JS.strict_neq (hash p) hashToSave); simpl.
    + destruct (String.eqb (type p) "indirect"); simpl; rewrite IH; reflexivity.
    + exact IH.
Qed.

Lemma strict_neq_Some x h : JS.strict_neq x (Some h) = negb (String.eqb x h).
Proof. reflexivity. Qed.

Lemma cleanPins_forEach_store_add h store :
  cleanPins_forEach (Some h) (store_add h store) = cleanPins_forEach (Some h) store.
Proof.
  unfold store_add.
  destruct (existsb (fun pin => String.eqb (hash pin) h && is_direct pin) store);
    [reflexivity|].
  rewrite !cleanPins_forEach_filter, filter_app. simpl.
  rewrite String.eqb_refl. simpl. rewrite app_nil_r. reflexivity.
Qed.

Lemma indirect_pins_store_add h store :
  indirect_pins (store_add h store) = indirect_pins store.
Proof.
  unfold store_add.
  destruct (existsb (fun pin => String.eqb (hash pin) h && is_direct pin) store);
    [reflexivity|].
  unfold indirect_pins. rewrite filter_app. simpl. apply app_nil_r.
Qed.

Lemma store_add_pins h store :
  exists pin, In pin (direct_pins (store_add h store)) /\ hash pin = h.
Proof.
  unfold store_add.
  destruct (existsb (fun pin => String.eqb (hash pin) h && is_direct pin) store)
    eqn:E.
  - apply existsb_exists in E as (pin & Hin & Hp).
    apply andb_true_iff in Hp as [Hh Hd]. apply String.eqb_eq in Hh.
    exists pin. split; [|exact Hh]. apply filter_In. auto.
  - exists (recursive h). split; [|reflexivity].
    apply filter_In. split; [|reflexivity].
    apply in_or_app. right. left. reflexivity.
Qed.

Lemma store_add_keeps h store pin : In pin store -> In pin (store_add h store).
Proof.
  unfold store_add.
  destruct (existsb (fun p => String.eqb (hash p) h && is_direct p) store); auto.
  intros H. apply in_or_app. auto.
Qed.

(** When the listing and every removal succeed, the Direct pins left are
    those of [h], in their order. *)
Lemma direct_pins_after_prune f h store :
  ls_fault f = None -> (forall x, rm_fault f x = None) ->
  direct_pins (prune_store f (Some h) store)
  = filter (fun pin => String.eqb (hash pin) h) (direct_pins store).
Proof.
  intros Hls Hrm. unfold prune_store, direct_pins.
  rewrite Hls, fold_rm_step_survives, !filter_filter.
  apply filter_ext_in. intros pin Hin.
  destruct (is_direct pin) eqn:Hd; [|apply andb_false_r].
  rewrite andb_true_r, andb_true_l. unfold survives. rewrite Hd, andb_true_l.
  destruct (String.eqb (hash pin) h) eqn:Hh.
  - apply String.eqb_eq in Hh. apply negb_true_iff, not_true_is_false.
    intros He. apply existsb_exists in He as (t & Ht & Heq).
    apply andb_true_iff in Heq as [Heq _]. apply String.eqb_eq in Heq.
    apply cleanPins_forEach_spec in Ht as (pin' & _ & Hh' & _ & Hne).
    congruence.
  - apply String.eqb_neq in Hh. apply negb_false_iff, existsb_exists.
    exists (hash pin). split.
    + apply cleanPins_forEach_spec. exists pin. repeat split; auto. congruence.
    + rewrite String.eqb_refl, Hrm. reflexivity.
Qed.

Lemma indirect_pins_after_prune f hashToSave store :
  indirect_pins (prune_store f hashToSave store) = indirect_pins store.
Proof.
  unfold prune_store. destruct (ls_fault f); [reflexivity|].
  apply indirect_pins_after_removals.
Qed.

Lemma pin_adds_prune_effects f hashToSave store :
  pin_adds (prune_effects f hashToSave store) = [].
Proof.
  unfold prune_effects, prune_report. destruct (ls_fault f); [reflexivity|].
  rewrite pin_adds_app, pin_adds_PinRm.
  destruct (first_fault f _); [reflexivity|]. apply pin_adds_unpinned.
Qed.

(** A pass in normal operation whose store calls all succeed. *)
Lemma pass_all_ok cfg f answer s store h :
  isTesting cfg = false -> exited s = None ->
  getLatestCheckpointsIPFSHash cfg answer = inr h -> all_ok f ->
  exists es,
    pass cfg f answer (s, store)
    = (after_pass s (Some h) Done [] es None,
       prune_store f (Some h)
         (if JS.strict_neq h (lastIPFSHash s) then store_add h store else store))
    /\ pin_adds es = (if JS.strict_neq h (lastIPFSHash s) then [h] else [])
    /\ rm_calls es = cleanPins_forEach (Some h) store.
Proof.
  intros Hnt Hex Hget (Hadd & Hls & Hrm).
  rewrite (pass_outcome_eq cfg f answer s store Hex).
  unfold pass_outcome. rewrite Hget, Hnt.
  destruct (JS.strict_neq h (lastIPFSHash s)) eqn:Hneq.
  - rewrite Hadd. eexists. split; [reflexivity|]. split.
    + rewrite !pin_adds_app, pin_adds_prune_effects. reflexivity.
    + rewrite !rm_calls_app, rm_calls_prune_effects, Hls.
      simpl. apply cleanPins_forEach_store_add.
  - apply strict_neq_false_iff in Hneq. rewrite Hneq.
    eexists. split; [reflexivity|]. split.
    + rewrite !pin_adds_app, pin_adds_prune_effects. reflexivity.
    + rewrite !rm_calls_app, rm_calls_prune_effects, Hls. reflexivity.
Qed.

Lemma cleanPins_forEach_others h store :
  cleanPins_forEach (Some h) store
  = map hash (filter (fun pin => negb (String.eqb (hash pin) h))
                (direct_pins store)).
Proof.
  rewrite cleanPins_forEach_filter. unfold direct_pins.
  rewrite filter_filter. f_equal. apply filter_ext. intros pin.
  rewrite strict_neq_Some. apply andb_comm.
Qed.

(** X9: in normal operation a pass whose store calls all succeed reaches the
    target state from any pin set: it pins the resolved identifier exactly
    when it differs from [lastIPFSHash], removes each Direct pin of another
    identifier once, in listing order, and leaves as Direct pins those of the
    resolved identifier only, the earlier ones among them in place; Indirect
    pins are untouched. *)
Theorem pass_reaches_target_state (cfg : Config) (f : Faults)
    (answer : DnsAnswer) (s : State) (store : PinSet) (h : string) :
  isTesting cfg = false ->
  exited s = None ->
  getLatestCheckpointsIPFSHash cfg answer = inr h ->
  all_ok f ->
  let w := pass cfg f answer (s, store) in
  (exists es,
     out (fst w) = out s ++ es
     /\ pin_adds es = (if JS.strict_neq h (lastIPFSHash s) then [h] else [])
     /\ rm_calls es
        = map hash (filter (fun pin => negb (String.eqb (hash pin) h))
                      (direct_pins store)))
  /\ lastIPFSHash (fst w) = Some h
  /\ (forall pin, In pin (direct_pins (snd w)) -> hash pin = h)
  /\ (forall pin, In pin (direct_pins store) -> hash pin = h ->
                  In pin (direct_pins (snd w)))
  /\ (JS.strict_neq h (lastIPFSHash s) = true ->
      exists pin, In pin (direct_pins (snd w)) /\ hash pin = h)
  /\ indirect_pins (snd w) = indirect_pins store.
Proof.
  intros Hnt Hex Hget Hok w. subst w.
  destruct (pass_all_ok cfg f answer s store h Hnt Hex Hget Hok)
    as (es & -> & Hadds & Hrms).
  destruct Hok as (_ & Hls & Hrm). cbn [fst snd after_pass out lastIPFSHash].
  rewrite (direct_pins_after_prune f h _ Hls Hrm), indirect_pins_after_prune.
  split; [|split; [|split; [|split; [|split]]]].
  - exists es. split; [reflexivity|]. split; [exact Hadds|].
    rewrite Hrms. apply cleanPins_forEach_others.
  - reflexivity.
  - intros pin Hin. apply filter_In in Hin as [_ Hh]. apply String.eqb_eq. exact Hh.
  - intros pin Hin Hh. apply filter_In. split.
    + destruct (JS.strict_neq h (lastIPFSHash s)); [|exact Hin].
      apply filter_In in Hin as [Hin Hd]. apply filter_In.
      split; [apply store_add_keeps; exact Hin | exact Hd].
    + apply String.eqb_eq. exact Hh.
  - intros Hneq. rewrite Hneq.
    destruct (store_add_pins h store) as (pin & Hin & Hh).
    exists pin. split; [|exact Hh]. apply filter_In. split; [exact Hin|].
    apply String.eqb_eq. exact Hh.
  - destruct (JS.strict_neq h (lastIPFSHash s)); [|reflexivity].
    apply indirect_pins_store_add.
Qed.

Lemma no_faults_all_ok : all_ok no_faults.
Proof. repeat split. Qed.

Lemma pass_reaches_target_state_witness :
  let store := [recursive "QmOld1"; indirect "QmZ"; direct "QmOld2"] in
  let w := pass default_config no_faults (dnslink "QmNew") (idle_with "QmOld1", store) in
  (exists es,
     out (fst w) = out (idle_with "QmOld1") ++ es
     /\ pin_adds es = ["QmNew"]
     /\ rm_calls es = ["QmOld1"; "QmOld2"])
  /\ lastIPFSHash (fst w) = Some "QmNew".
Proof.
  intros store w.
  pose proof (pass_reaches_target_state default_config no_faults (dnslink "QmNew")
                (idle_with "QmOld1") store "QmNew"
                eq_refl eq_refl eq_refl no_faults_all_ok) as H.
  split; [exact (proj1 H) | exact (proj1 (proj2 H))].
Defined.

Lemma filter_none {A : Type} (P : A -> bool) (l : list A) :
  (forall x, In x l -> P x = false) -> filter P l = [].
Proof.
  induction l as [|y l IH]; simpl; intros H; [reflexivity|].
  rewrite (H y (or_introl eq_refl)). apply IH. auto.
Qed.

Lemma filter_all {A : Type} (P : A -> bool) (l : list A) :
  (forall x, In x l -> P x = true) -> filter P l = l.
Proof.
  induction l as [|y l IH]; simpl; intros H; [reflexivity|].
  rewrite (H y (or_introl eq_refl)). f_equal. apply IH. auto.
Qed.

(** X10: after a pin-add of a new identifier [X] has failed, [lastIPFSHash] is
    [X] although nothing of [X] is pinned.  The next pass that resolves [X]
    and whose store calls succeed issues no pin-add and removes every Direct
    pin: the store is left without any Direct pin. *)
Theorem failed_pin_add_then_prune_unpins_all (cfg : Config) (f1 f2 : Faults)
    (answer1 answer2 : DnsAnswer) (s : State) (store : PinSet)
    (X err : string) :
  isTesting cfg = false ->
  exited s = None ->
  getLatestCheckpointsIPFSHash cfg answer1 = inr X ->
  getLatestCheckpointsIPFSHash cfg answer2 = inr X ->
  JS.strict_neq X (lastIPFSHash s) = true ->
  add_fault f1 X = Some err ->
  all_ok f2 ->
  (forall pin, In pin (direct_pins store) -> hash pin <> X) ->
  let w1 := pass cfg f1 answer1 (s, store) in
  let w2 := pass cfg f2 answer2 w1 in
  snd w1 = store
  /\ (exists es,
        out (fst w2) = out (fst w1) ++ es
        /\ pin_adds es = []
        /\ rm_calls es = map hash (direct_pins store))
  /\ direct_pins (snd w2) = []
  /\ indirect_pins (snd w2) = indirect_pins store.
Proof.
  intros Hnt Hex Hget1 Hget2 Hneq Hadd Hok Hno w1 w2. subst w2 w1.
  rewrite (pass_outcome_eq cfg f1 answer1 s store Hex).
  unfold pass_outcome. rewrite Hget1, Hneq, Hadd, Hnt.
  destruct (pass_all_ok cfg f2 answer2
              (after_pass s (Some X) Done []
                 ([ResolveTxt (dnslink_name cfg);
                   Log INFO ("Detected new checkpoints IPFS hash: " ++ X);
                   Log INFO ("Attempting to pin locally: " ++ X); PinAdd X]
                    ++ [Log WARN err]) None)
              store X Hnt eq_refl Hget2 Hok) as (es & -> & Hadds & Hrms).
  destruct Hok as (_ & Hls & Hrm).
  cbn [fst snd after_pass out lastIPFSHash] in *.
  rewrite strict_neq_Some, String.eqb_refl in *. cbn [negb] in *.
  rewrite (direct_pins_after_prune f2 X _ Hls Hrm), indirect_pins_after_prune.
  split; [reflexivity|]. split; [|split].
  - exists es. split; [reflexivity|]. split; [exact Hadds|].
    rewrite Hrms, cleanPins_forEach_others. f_equal. apply filter_all.
    intros pin Hin. apply negb_true_iff, String.eqb_neq. auto.
  - apply filter_none. intros pin Hin. apply String.eqb_neq. auto.
  - reflexivity.
Qed.

Lemma failed_pin_add_then_prune_witness :
  let store := [recursive "QmOld"; indirect "QmZ"] in
  let f1 := {| add_fault := fun _ => Some "Error: pin add failed";
               ls_fault := None; rm_fault := fun _ => None |} in
  let w1 := pass default_config f1 (dnslink "QmNew") (idle_with "QmOld", store) in
  let w2 := pass default_config no_faults (dnslink "QmNew") w1 in
  direct_pins (snd w1) = [recursive "QmOld"]
  /\ direct_pins (snd w2) = [].
Proof.
  intros store f1 w1 w2. split; [reflexivity|].
  assert (Hno : forall pin, In pin (direct_pins store) -> hash pin <> "QmNew").
  { simpl. intros pin [<- | []]. discriminate. }
  exact (proj1 (proj2 (proj2
           (failed_pin_add_then_prune_unpins_all default_config f1 no_faults
              (dnslink "QmNew") (dnslink "QmNew") (idle_with "QmOld") store
              "QmNew" "Error: pin add failed"
              eq_refl eq_refl eq_refl eq_refl eq_refl eq_refl
              no_faults_all_ok Hno)))).
Defined.

(** X11: a fresh process treats whatever DNS resolves to as new, the empty string
    included.  In a test run the first pass then ends the run as soon as the
    pin-add succeeds: the process exits with status 0 without ever listing or
    pruning; if the pin-add fails, the run goes on with the pin set
    untouched. *)
Theorem test_run_first_pass (cfg : Config) (f : Faults) (answer : DnsAnswer)
    (store : PinSet) (h : string) :
  isTesting cfg = true ->
  getLatestCheckpointsIPFSHash cfg answer = inr h ->
  let w := pass cfg f answer (initial, store) in
  let attempt := [ResolveTxt (dnslink_name cfg);
                  Log INFO ("Detected new checkpoints IPFS hash: " ++ h);
                  Log INFO ("Attempting to pin locally: " ++ h);
                  PinAdd h] in
  pingTimers (fst w) = [h]
  /\ lastIPFSHash (fst w) = Some h
  /\ match add_fault f h with
     | None =>
         exited (fst w) = Some 0%Z
         /\ out (fst w) = attempt ++ [Log INFO ("Pinned successfully: " ++ h);
                                      Log DEBUG "Test completed. Stopping...";
                                      Exit 0]
         /\ snd w = store_add h store
     | Some err =>
         exited (fst w) = None
         /\ out (fst w) = attempt ++ [Log WARN err]
         /\ snd w = store
     end.
Proof.
  intros Ht Hget. cbv zeta.
  rewrite (pass_outcome_eq cfg f answer initial store eq_refl).
  unfold pass_outcome. rewrite Hget, Ht. cbn [initial lastIPFSHash JS.strict_neq].
  destruct (add_fault f h) as [err|]; cbn [fst snd after_pass pingTimers
                                            lastIPFSHash exited out initial app];
    auto.
Qed.

Lemma test_run_first_pass_witness :
  let w := pass test_config no_faults (dnslink "") (initial, []) in
  getLatestCheckpointsIPFSHash test_config (dnslink "") = inr ""
  /\ lastIPFSHash (fst w) = Some "".
Proof.
  intros w. split; [reflexivity|].
  exact (proj1 (proj2 (test_run_first_pass test_config no_faults (dnslink "")
                         [] "" eq_refl eq_refl))).
Defined.

(** ** Start-up *)

Lemma indexOf_found x a : indexOf x a <> (-1)%Z <-> In x a.
Proof.
  induction a as [|y a IH]; simpl.
  - split; [congruence | contradiction].
  - destruct (String.eqb y x) eqn:E.
    + apply String.eqb_eq in E. split; [auto | discriminate].
    + apply String.eqb_neq in E.
      destruct (Z.eqb (indexOf x a) (-1)) eqn:Ei.
      * apply Z.eqb_eq in Ei. split; [congruence|].
        intros [H | H]; [congruence|]. apply IH in H. congruence.
      * apply Z.eqb_neq in Ei. split.
        -- intros _. right. apply IH. exact Ei.
        -- intros _. assert (0 <= indexOf x a)%Z; [|lia].
           clear - Ei. induction a as [|z a IHa]; simpl in *; [congruence|].
           destruct (String.eqb z x); [lia|].
           destruct (Z.eqb (indexOf x a) (-1)) eqn:E'; [congruence|].
           apply Z.eqb_neq in E'. specialize (IHa E'). lia.
Qed.

(** X12: the settings read from the environment: the run is a test run exactly
    when one of the arguments after the script path is [test]; a variable set
    to the empty string counts as unset, so an empty [IPFS_HOST] embeds a node,
    an empty [CHECKPOINTS_HOSTNAME] resolves the default host, and an empty or
    unset [TEST_MAXIMUM_MINUTES] gives the watchdog 15 minutes. *)
Theorem settings_from_environment (toNumber : string -> Z) (env : Env) :
  let st := settings_of toNumber env in
  (isTesting (config st) = true <-> In "test" (skipn 2 (argv env)))
  /\ (IPFS_HOST env = None \/ IPFS_HOST env = Some "" <-> ipfsHost st = None)
  /\ (CHECKPOINTS_HOSTNAME env = None \/ CHECKPOINTS_HOSTNAME env = Some "" ->
      dnslink_name (config st) = "_dnslink.ipfs.moncoin.io")
  /\ (TEST_MAXIMUM_MINUTES env = None \/ TEST_MAXIMUM_MINUTES env = Some "" ->
      watchdog_delay (config st) = 900000%Z).
Proof.
  cbv zeta. unfold settings_of. cbn [config isTesting ipfsHost].
  split; [|split; [|split]].
  - rewrite negb_true_iff, Z.eqb_neq. apply indexOf_found.
  - destruct (IPFS_HOST env) as [[|c v]|]; simpl; split; auto;
      try discriminate; intros [H | H]; discriminate.
  - unfold dnslink_name. cbn [checkpointsHostname].
    intros [-> | ->]; reflexivity.
  - unfold watchdog_delay. cbn [testMinutes].
    intros [-> | ->]; reflexivity.
Qed.

Lemma settings_from_environment_witness :
  let env := {| IPFS_HOST := Some ""; IPFS_PORT := None; IPFS_REPO_PATH := None;
                CHECKPOINTS_HOSTNAME := Some "";
                TEST_MAXIMUM_MINUTES := None;
                home_repo_path := "/root/TurtleCoinIPFS";
                argv := ["node"; "index.js"; "test"] |} in
  let st := settings_of (fun _ => 0%Z) env in
  isTesting (config st) = true
  /\ dnslink_name (config st) = "_dnslink.ipfs.moncoin.io"
  /\ watchdog_delay (config st) = 900000%Z.
Proof.
  intros env st.
  pose proof (settings_from_environment (fun _ => 0%Z) env) as H.
  split; [|split].
  - apply (proj1 H). simpl. auto.
  - apply (proj1 (proj2 (proj2 H))). right. reflexivity.
  - apply (proj2 (proj2 (proj2 H))). left. reflexivity.
Defined.

Ltac proc_simpl :=
  unfold isReady_check, start_loop, set_phase, set_loop, boot_emit;
  cbn [phase embedded boot armed loop].

Lemma gate_closed_step st p ev :
  opens_gate ev = false ->
  phase p <> Running /\ loop p = initial /\ armed p = None ->
  phase (proc_handle st p ev) <> Running
  /\ loop (proc_handle st p ev) = initial
  /\ armed (proc_handle st p ev) = None.
Proof.
  intros Hev (Hph & Hloop & Harm). unfold proc_handle. rewrite Hloop.
  cbn [exited initial].
  destruct ev as [|[e|[|n]]| |error|e], (phase p) eqn:Ep; try discriminate;
    try congruence; proc_simpl; rewrite ?Ep;
    try (destruct (embedded p); proc_simpl; rewrite ?Ep);
    repeat split; auto; discriminate.
Qed.

(** X13: the readiness gate: with an embedded node, as long as no
    [node.swarm.peers] answer reports a peer (errors and empty lists alike),
    the loop is not started: no DNS query, no call on the pin set, and the
    test watchdog is not armed either, so a test run that never finds a peer
    waits without end. *)
Theorem gate_stays_closed_without_peers (st : Settings) (evs : list ProcEvent) :
  ipfsHost st = None ->
  existsb opens_gate evs = false ->
  let p := proc_run st (start st) evs in
  phase p <> Running /\ loop p = initial /\ armed p = None.
Proof.
  intros Hhost Hevs. cbv zeta.
  induction evs as [|ev evs IH] using rev_ind.
  - unfold start. rewrite Hhost. simpl. repeat split. discriminate.
  - rewrite existsb_app in Hevs. apply orb_false_iff in Hevs as [Hevs Hev].
    simpl in Hev. rewrite orb_false_r in Hev.
    unfold proc_run. rewrite fold_left_app. cbn [fold_left].
    apply gate_closed_step; [exact Hev | exact (IH Hevs)].
Qed.

Lemma gate_stays_closed_witness :
  let st := {| ipfsHost := None; ipfsPort := "5001";
               ipfsRepoPath := "/root/TurtleCoinIPFS"; config := test_config |} in
  let evs := [NodeCreated; PeersReply (inl "Error: offline"); TimeoutFired;
              PeersReply (inr 0); LoopEvent Watchdog] in
  existsb opens_gate evs = false
  /\ armed (proc_run st (start st) evs) = None.
Proof.
  intros st evs. split; [reflexivity|].
  exact (proj2 (proj2 (gate_stays_closed_without_peers st evs eq_refl eq_refl))).
Defined.

Lemma swarm_polls_app b b' : swarm_polls (b ++ b') = swarm_polls b + swarm_polls b'.
Proof. unfold swarm_polls. rewrite filter_app, length_app. reflexivity. Qed.

Lemma retry_timers_app b b' :
  retry_timers (b ++ b') = retry_timers b + retry_timers b'.
Proof. unfold retry_timers. rewrite filter_app, length_app. reflexivity. Qed.

Lemma poll_balance_step st p ev :
  poll_balance p /\ Forall retry_delay_ok (boot p) ->
  poll_balance (proc_handle st p ev)
  /\ Forall retry_delay_ok (boot (proc_handle st p ev)).
Proof.
  intros [Hb Hd]. unfold proc_handle, poll_balance in *.
  destruct (exited (loop p)); [auto|].
  destruct ev as [|[e|[|n]]| |error|e], (phase p) eqn:Ep; rewrite ?Ep; auto;
    proc_simpl; rewrite ?Ep;
    try (destruct (embedded p) eqn:Ee; proc_simpl; rewrite ?Ep, ?Ee);
    (split;
     [ unfold swarm_polls, retry_timers in *;
       rewrite ?filter_app, ?length_app; simpl;
       intuition (try lia; try congruence)
     | rewrite ?Forall_app; repeat split; auto; repeat constructor ]).
Qed.

Lemma poll_balance_start st :
  poll_balance (start st) /\ Forall retry_delay_ok (boot (start st)).
Proof.
  unfold start, poll_balance.
  destruct (ipfsHost st), (isTesting (config st)); simpl;
    repeat split; repeat constructor.
Qed.

(** X14: the gate polls the swarm one call at a time: a new [node.swarm.peers]
    call is made only when the 5 s timer set after the previous unsuccessful
    answer fires, so polls never outnumber the timers by more than one; every
    timer of the gate waits 5000 ms; with a remote node the swarm is never
    polled. *)
Theorem gate_polls_one_at_a_time (st : Settings) (evs : list ProcEvent) :
  let p := proc_run st (start st) evs in
  retry_timers (boot p) <= swarm_polls (boot p) <= S (retry_timers (boot p))
  /\ (forall ms, In (SetTimeout ms) (boot p) -> ms = 5000%Z)
  /\ (ipfsHost st <> None -> swarm_polls (boot p) = 0).
Proof.
  cbv zeta.
  assert (Inv : poll_balance (proc_run st (start st) evs)
                /\ Forall retry_delay_ok (boot (proc_run st (start st) evs))).
  { induction evs as [|ev evs IH] using rev_ind.
    - apply poll_balance_start.
    - unfold proc_run. rewrite fold_left_app. cbn [fold_left].
      apply poll_balance_step. exact IH. }
  assert (Hemb : ipfsHost st <> None ->
                 phase (proc_run st (start st) evs) = Running
                 /\ embedded (proc_run st (start st) evs) = false).
  { clear Inv. intros Hhost. induction evs as [|ev evs IH] using rev_ind.
    - unfold start. destruct (ipfsHost st); [auto | congruence].
    - unfold proc_run. rewrite fold_left_app. cbn [fold_left].
      fold (proc_run st (start st) evs). destruct IH as [Hph He].
      unfold proc_handle. rewrite Hph, He.
      destruct (exited (loop (proc_run st (start st) evs))); [auto|].
      destruct ev; auto. }
  destruct Inv as [Hb Hd]. unfold poll_balance in Hb. split; [|split].
  - destruct (phase (proc_run st (start st) evs));
      try destruct (embedded (proc_run st (start st) evs)); lia.
  - intros ms Hin. rewrite Forall_forall in Hd. exact (Hd _ Hin).
  - intros Hhost. destruct (Hemb Hhost) as [Hph He].
    rewrite Hph, He in Hb. tauto.
Qed.

Lemma gate_polls_witness :
  let st := {| ipfsHost := Some "127.0.0.1"; ipfsPort := "5001";
               ipfsRepoPath := "/root/TurtleCoinIPFS"; config := default_config |} in
  let p := proc_run st (start st) [PeersReply (inr 0); TimeoutFired; LoopEvent Tick] in
  ipfsHost st <> None /\ swarm_polls (boot p) = 0.
Proof.
  intros st p.
  assert (H : ipfsHost st <> None) by discriminate.
  split; [exact H|].
  exact (proj2 (proj2 (gate_polls_one_at_a_time st
                         [PeersReply (inr 0); TimeoutFired; LoopEvent Tick])) H).
Defined.

Lemma proc_run_app st p evs evs' :
  proc_run st p (evs ++ evs') = proc_run st (proc_run st p evs) evs'.
Proof. unfold proc_run. apply fold_left_app. Qed.

Lemma polling_rounds st fails :
  forallb no_peers fails = true ->
  forall b,
    proc_run st
      {| phase := Polling; embedded := true; boot := b; armed := None;
         loop := initial |}
      (flat_map (fun r => [PeersReply r; TimeoutFired]) fails)
    = {| phase := Polling; embedded := true;
         boot := b ++ flat_map (fun _ => [SetTimeout 5000; SwarmPeers]) fails;
         armed := None; loop := initial |}.
Proof.
  induction fails as [|r fails IH]; intros Hall b.
  - simpl. rewrite app_nil_r. reflexivity.
  - simpl in Hall. apply andb_true_iff in Hall as [Hr Hall].
    cbn [flat_map app]. unfold proc_run in *. cbn [fold_left].
    assert (Hstep : proc_handle st
                      (proc_handle st
                         {| phase := Polling; embedded := true; boot := b;
                            armed := None; loop := initial |} (PeersReply r))
                      TimeoutFired
                    = {| phase := Polling; embedded := true;
                         boot := b ++ [SetTimeout 5000; SwarmPeers];
                         armed := None; loop := initial |}).
    { destruct r as [e|[|n]]; try discriminate; unfold proc_handle; simpl;
        proc_simpl; rewrite <- app_assoc; reflexivity. }
    rewrite Hstep, (IH Hall). rewrite <- app_assoc. reflexivity.
Qed.

(** X15: the gate opens at the first answer that reports a peer: after the node
    is created and any number of answers without peers, each retried 5 s
    later, that answer logs the connection, issues the first DNS query at once
    and, in a test run only, arms the watchdog with the configured budget. *)
Theorem gate_opens_at_first_peer (st : Settings) (fails : list (Settled nat))
    (n : nat) :
  ipfsHost st = None ->
  forallb no_peers fails = true ->
  let p := proc_run st (start st)
             (NodeCreated
                :: flat_map (fun r => [PeersReply r; TimeoutFired]) fails
                ++ [PeersReply (inr (S n))]) in
  phase p = Running
  /\ swarm_polls (boot p) = S (length fails)
  /\ retry_timers (boot p) = length fails
  /\ last_opt (boot p) = Some (BLog INFO "IPFS node connected to swarm...")
  /\ loop p = handle (config st) initial Tick
  /\ out (loop p) = [ResolveTxt (dnslink_name (config st))]
  /\ armed p = (if isTesting (config st)
                then Some (1000 * 60 * testMinutes (config st))%Z else None).
Proof.
  intros Hhost Hall. cbv zeta.
  change (NodeCreated
            :: flat_map (fun r => [PeersReply r; TimeoutFired]) fails
            ++ [PeersReply (inr (S n))])
    with ([NodeCreated]
            ++ flat_map (fun r => [PeersReply r; TimeoutFired]) fails
            ++ [PeersReply (inr (S n))]).
  rewrite !proc_run_app.
  assert (Hcreated :
            proc_run st (start st) [NodeCreated]
            = {| phase := Polling; embedded := true;
                 boot := boot (start st)
                           ++ [BLog INFO "IPFS node started";
                               BLog INFO "Waiting for IPFS node to connect to swarm...";
                               SwarmPeers];
                 armed := None; loop := initial |}).
  { unfold start. rewrite Hhost. reflexivity. }
  rewrite Hcreated, (polling_rounds st fails Hall).
  assert (Hboot : swarm_polls (boot (start st)) = 0
                  /\ retry_timers (boot (start st)) = 0).
  { unfold start. rewrite Hhost. destruct (isTesting (config st)); auto. }
  destruct Hboot as [Hb0 Ht0].
  assert (Hcount : forall l : list (Settled nat),
            swarm_polls (flat_map (fun _ => [SetTimeout 5000; SwarmPeers]) l)
            = length l
            /\ retry_timers (flat_map (fun _ => [SetTimeout 5000; SwarmPeers]) l)
               = length l).
  { induction l as [|x l [IH1 IH2]]; [auto|].
    cbn [flat_map]. rewrite swarm_polls_app, retry_timers_app, IH1, IH2. auto. }
  destruct (Hcount fails) as [Hp Ht].
  unfold proc_run. cbn [fold_left]. unfold proc_handle.
  cbn [loop exited initial phase]. proc_simpl.
  rewrite !swarm_polls_app, !retry_timers_app, Hb0, Ht0, Hp, Ht, last_opt_snoc.
  repeat split; unfold swarm_polls, retry_timers; simpl; lia.
Qed.

Lemma gate_opens_witness :
  let st := {| ipfsHost := None; ipfsPort := "5001";
               ipfsRepoPath := "/root/TurtleCoinIPFS"; config := test_config |} in
  let p := proc_run st (start st)
             [NodeCreated; PeersReply (inl "Error: offline"); TimeoutFired;
              PeersReply (inr 0); TimeoutFired; PeersReply (inr 3)] in
  swarm_polls (boot p) = 3 /\ armed p = Some 900000%Z.
Proof.
  intros st p.
  pose proof (gate_opens_at_first_peer st [inl "Error: offline"; inr 0] 2
                eq_refl eq_refl) as H.
  split.
  - exact (proj1 (proj2 H)).
  - exact (proj2 (proj2 (proj2 (proj2 (proj2 (proj2 H)))))).
Defined.

Lemma remote_run st evs :
  forall p,
    phase p = Running -> embedded p = false ->
    proc_run st p evs = set_loop (run (config st) (loop p) (loop_events evs)) p.
Proof.
  induction evs as [|ev evs IH]; intros p Hph He.
  - destruct p. reflexivity.
  - unfold proc_run in *. cbn [fold_left].
    assert (Hstep : proc_handle st p ev
                    = set_loop (run (config st) (loop p) (loop_events [ev])) p).
    { unfold proc_handle. rewrite Hph, He.
      destruct (exited (loop p)) as [c|] eqn:Hex.
      - rewrite (run_after_exit (config st) (loop p) _ c Hex). destruct p. reflexivity.
      - destruct ev; destruct p; reflexivity. }
    rewrite IH; rewrite Hstep; try assumption.
    cbn [loop set_loop]. unfold set_loop. cbn [phase embedded boot armed].
    assert (Hle : loop_events (ev :: evs) = loop_events [ev] ++ loop_events evs)
      by (unfold loop_events; cbn [flat_map]; rewrite app_nil_r; reflexivity).
    rewrite Hle. unfold run. rewrite fold_left_app. reflexivity.
Qed.

(** X16: with a remote node ([IPFS_HOST] set) there is no gate: the start-up
    output is final, the first DNS query is issued at start, and the process is
    the reconciliation loop itself; no other event, a node error included,
    has any effect. *)
Theorem remote_node_runs_the_loop_at_once (st : Settings) (host : string)
    (evs : list ProcEvent) :
  ipfsHost st = Some host ->
  let p := proc_run st (start st) evs in
  phase p = Running
  /\ boot p = boot (start st)
  /\ last_opt (boot p) = Some (ConnectNode host (ipfsPort st))
  /\ loop p = run (config st) initial (Tick :: loop_events evs).
Proof.
  intros Hhost. cbv zeta.
  assert (Hs : phase (start st) = Running /\ embedded (start st) = false
               /\ loop (start st) = handle (config st) initial Tick
               /\ last_opt (boot (start st))
                  = Some (ConnectNode host (ipfsPort st))).
  { unfold start. rewrite Hhost. cbn [start_loop phase embedded loop boot].
    repeat split. change [BLog INFO ("Using IPFS node at " ++ host ++ ":" ++ ipfsPort st);
                          ConnectNode host (ipfsPort st)]
      with ([BLog INFO ("Using IPFS node at " ++ host ++ ":" ++ ipfsPort st)]
              ++ [ConnectNode host (ipfsPort st)]).
    rewrite app_assoc. apply last_opt_snoc. }
  destruct Hs as (Hph & He & Hloop & Hlast).
  rewrite (remote_run st evs (start st) Hph He).
  unfold set_loop. cbn [phase boot loop]. rewrite Hloop.
  repeat split; auto.
Qed.

Lemma remote_node_witness :
  let st := {| ipfsHost := Some "127.0.0.1"; ipfsPort := "5001";
               ipfsRepoPath := "/root/TurtleCoinIPFS"; config := default_config |} in
  let p := proc_run st (start st)
             [NodeError "Error: ignored"; LoopEvent (DnsReply 0 (dnslink "QmXYZ"))] in
  lastIPFSHash (loop p) = Some "QmXYZ".
Proof.
  intros st p.
  pose proof (remote_node_runs_the_loop_at_once st "127.0.0.1"
                [NodeError "Error: ignored";
                 LoopEvent (DnsReply 0 (dnslink "QmXYZ"))] eq_refl) as H.
  cbv zeta in H. unfold p.
  rewrite (proj2 (proj2 (proj2 H))). reflexivity.
Defined.
